(** * data_processing.py: corpus reader, vocabulary builder, bag-of-words

    A shallow embedding of [src/data_processing.py] and the properties of
    its three functions [read_sentiment_examples], [build_vocab] and
    [bag_of_words].

    Conventions of the embedding.
    - A Python [str] is a [string]; a character is a code point below 256.
    - A Python [int] is a [Z].
    - A call that may raise returns a [result]: [Ok v] or [Raise e].
    - A [dict] used as a map is a [gmap]; a [dict] whose iteration order
      matters (a [Counter]) is an association list in insertion order.
    - A one-dimensional float32 tensor all of whose entries are integral is
      the list of those integers; storing an integer rounds it to float32. *)

From Stdlib Require Import ZArith Ascii String.
From stdpp Require Import gmap strings list.

Local Open Scope string_scope.
Local Open Scope Z_scope.
Local Open Scope list_scope.

(** ** Exceptions *)

Inductive exn : Type :=
  | OSError             (* the file cannot be opened *)
  | UnicodeDecodeError  (* the bytes of the file are no text *)
  | IndexError          (* list or tensor index out of range *)
  | ValueError          (* invalid literal for int(), invalid path *)
  | IndexOverflow.      (* torch: an index that does not fit 64 bits *)

Inductive result (A : Type) : Type :=
  | Ok (a : A)
  | Raise (e : exn).
Arguments Ok {A} a.
Arguments Raise {A} e.

#[global] Instance exn_eq_dec : EqDecision exn.
Proof. solve_decision. Defined.

#[global] Instance result_ret : MRet result := @Ok.
#[global] Instance result_bind : MBind result := λ A B f m,
  match m with
  | Ok a => f a
  | Raise e => Raise e
  end.

Definition is_Ok {A} (r : result A) : Prop := ∃ a, r = Ok a.

(** ** Python built-ins used by the module *)

Module Py.

Definition TAB : ascii := "009"%char.
Definition LF : ascii := "010"%char.
Definition CR : ascii := "013"%char.

(** [s.split(sep)] for a separator of one character: one field per
    occurrence of the separator plus one; never the empty list. *)
Fixpoint split (sep : ascii) (s : string) : list string :=
  match s with
  | EmptyString => [EmptyString]
  | String c s' =>
      if Ascii.eqb c sep then EmptyString :: split sep s'
      else match split sep s' with
           | f :: fs => String c f :: fs
           | [] => [String c EmptyString]
           end
  end.

(** [l[i]] for a non-negative literal index. *)
Definition getitem {A} (l : list A) (i : nat) : result A :=
  match l !! i with
  | Some x => Ok x
  | None => Raise IndexError
  end.

(** White space skipped by [int()] around the number: the ASCII space
    characters, and NEL and NBSP among the code points 128..255. *)
Definition is_space (c : ascii) : bool :=
  let n := N.to_nat (N_of_ascii c) in
  ((9 <=? n)%nat && (n <=? 13)%nat) || (n =? 32)%nat || (n =? 133)%nat
  || (n =? 160)%nat.

Definition digit_val (c : ascii) : option Z :=
  let n := Z.of_N (N_of_ascii c) in
  if (48 <=? n) && (n <=? 57) then Some (n - 48) else None.

Definition UNDERSCORE : ascii := "_"%char.

Fixpoint lstrip (s : string) : string :=
  match s with
  | String c s' => if is_space c then lstrip s' else s
  | EmptyString => EmptyString
  end.

Fixpoint all_space (s : string) : bool :=
  match s with
  | String c s' => is_space c && all_space s'
  | EmptyString => true
  end.

(** The digits after the first one. A single underscore may separate two
    digits; [prev_us] says that the previous character was an underscore.
    Returns the value read and the rest of the string. *)
Fixpoint int_digits (prev_us : bool) (acc : Z) (s : string) : option (Z * string) :=
  match s with
  | String c s' =>
      match digit_val c with
      | Some d => int_digits false (10 * acc + d) s'
      | None =>
          if Ascii.eqb c UNDERSCORE then
            if prev_us then None else int_digits true acc s'
          else if prev_us then None else Some (acc, s)
      end
  | EmptyString => if prev_us then None else Some (acc, s)
  end.

Definition int_unsigned (s : string) : option Z :=
  match s with
  | String c s' =>
      match digit_val c with
      | Some d =>
          match int_digits false d s' with
          | Some (v, rest) => if all_space rest then Some v else None
          | None => None
          end
      | None => None
      end
  | EmptyString => None
  end.

(** The integer that a literal in base 10 denotes: surrounding white
    space, one optional sign, digits with single underscores between
    them; of any length. *)
Definition int_literal (s : string) : option Z :=
  match lstrip s with
  | String "+" s' => int_unsigned s'
  | String "-" s' => Z.opp <$> int_unsigned s'
  | s' => int_unsigned s'
  end.

(** The number of digits in the run of digits and underscores at the head
    of a string. *)
Fixpoint scan_digits (s : string) : Z :=
  match s with
  | String c s' =>
      match digit_val c with
      | Some _ => 1 + scan_digits s'
      | None => if Ascii.eqb c UNDERSCORE then scan_digits s' else 0
      end
  | EmptyString => 0
  end.

(** The number of digits of a literal, leading zeros included, white
    space, sign and underscores not. *)
Definition literal_digits (s : string) : Z :=
  match lstrip s with
  | String "+" s' => scan_digits s'
  | String "-" s' => scan_digits s'
  | s' => scan_digits s'
  end.

(** [sys.get_int_max_str_digits()], as it is by default: [int] refuses a
    literal of more digits (CPython 3.11, and the earlier versions that
    have the limit). *)
Definition max_str_digits : Z := 4300.

(** [int(s)] in base 10, as an option: the integer of the literal, unless
    it has more digits than the limit. *)
Definition int_opt (s : string) : option Z :=
  if max_str_digits <? literal_digits s then None else int_literal s.

(** [int(s)]: raises [ValueError] on an invalid literal and on one that
    is too long. *)
Definition int (s : string) : result Z :=
  match int_opt s with
  | Some z => Ok z
  | None => Raise ValueError
  end.

(** Text mode with the default [newline=None]: on reading, ["\r\n"] and a
    lone ["\r"] become ["\n"]. *)
Fixpoint universal_newlines (s : string) : string :=
  match s with
  | EmptyString => EmptyString
  | String c s' =>
      if Ascii.eqb c CR then
        match s' with
        | String c' s'' =>
            if Ascii.eqb c' LF then String LF (universal_newlines s'')
            else String LF (universal_newlines s')
        | EmptyString => String LF EmptyString
        end
      else String c (universal_newlines s')
  end.

(** The lines of a text, each with its terminating ["\n"] (the last line
    has none when the text does not end in one). *)
Fixpoint lines_keepends (s : string) : list string :=
  match s with
  | EmptyString => []
  | String c s' =>
      if Ascii.eqb c LF then String c EmptyString :: lines_keepends s'
      else match lines_keepends s' with
           | l :: ls => String c l :: ls
           | [] => [String c EmptyString]
           end
  end.

(** A file system, by path: the decoded text of each file that can be
    opened and read as text, and for the other paths the exception that
    opening or reading raises ([OSError] when there is no such file,
    [UnicodeDecodeError] when its bytes do not decode, [ValueError] when
    the path holds a NUL character). *)
Record filesystem : Type := {
  contents : string → option string;
  open_error : string → exn
}.

(** [with open(infile, "r") as f: f.readlines()] *)
Definition open_readlines (fs : filesystem) (infile : string) : result (list string) :=
  match contents fs infile with
  | Some text => Ok (lines_keepends (universal_newlines text))
  | None => Raise (open_error fs infile)
  end.

End Py.

(** A file system is used as the function from paths to texts. *)
Coercion Py.contents : Py.filesystem >-> Funclass.

(** ** utils.py *)

(** Modelled from the spec: class [SentimentExample] of [src/utils.py],
    which is not among the sources. The spec's Example is an immutable
    record of an ordered sequence of tokens and an integer label;
    [build_vocab] reads the tokens as the attribute [words]. *)
Record SentimentExample : Type := mkSentimentExample {
  words : list string;
  label : Z
}.

(** Modelled from the spec: a sample of the tokenizer [tokenize] of
    [src/utils.py], which is not among the sources: the spec's example
    scenario has it split the text at white space. The functions below
    take the tokenizer as a parameter; this one instantiates it in the
    examples. *)
Fixpoint split_whitespace_aux (cur : string) (s : string) : list string :=
  let flush (rest : list string) :=
    match cur with
    | EmptyString => rest
    | _ => String.rev cur :: rest
    end in
  match s with
  | EmptyString => flush []
  | String c s' =>
      if Py.is_space c then flush (split_whitespace_aux EmptyString s')
      else split_whitespace_aux (String c cur) s'
  end.

Definition split_whitespace (s : string) : list string :=
  split_whitespace_aux EmptyString s.

(** ** read_sentiment_examples *)

Section Reader.

(** [tokenize] of [src/utils.py]: a pure function from a text to its
    tokens. *)
Variable tokenize : string → list string.

(** The element expression of the list comprehension, for one line:
    [SentimentExample(tokenize(line.split("\t")[0]),
                      int(line.split("\t")[1]))],
    arguments evaluated from left to right. *)
Definition parse_line (line : string) : result SentimentExample :=
  text ← Py.getitem (Py.split Py.TAB line) 0;
  let ws := tokenize text in
  field ← Py.getitem (Py.split Py.TAB line) 1;
  n ← Py.int field;
  mret (mkSentimentExample ws n).

Definition read_sentiment_examples (fs : Py.filesystem) (infile : string)
  : result (list SentimentExample) :=
  lines ← Py.open_readlines fs infile;
  mapM parse_line lines.

End Reader.


(** ** build_vocab *)

(** Iteration order of a [set] of strings. [list(set(xs))] holds every
    distinct element of [xs] once; the order depends on the hashes of the
    strings, which change from one run to the next, so nothing else is
    known of it. *)
Class SetOrder : Type := {
  list_set : list string → list string;
  list_set_NoDup : ∀ xs, NoDup (list_set xs);
  list_set_elem : ∀ xs w, w ∈ list_set xs ↔ w ∈ xs
}.

(** [enumerate(l)] *)
Definition enumerate {A} (l : list A) : list (Z * A) :=
  imap (λ i x, (Z.of_nat i, x)) l.

(** [{word: i for i, word in enumerate(l)}]: the pairs are stored one
    after the other, a later pair replacing an earlier one of the same
    key. *)
Definition dict_of_enumerate (l : list (Z * string)) : gmap string Z :=
  foldl (λ d iw, <[iw.2 := iw.1]> d) ∅ l.

(** [[word for example in examples for word in example.words]] *)
Definition all_words (examples : list SentimentExample) : list string :=
  examples ≫= words.

Definition build_vocab `{SetOrder} (examples : list SentimentExample)
  : gmap string Z :=
  let distinct_words := list_set (all_words examples) in
  dict_of_enumerate (enumerate distinct_words).

(** The invariant of a Vocabulary in the spec's data model: every index
    lies in the range of positions [0 .. size - 1] and no two words share
    one. (With as many words as positions, every position is then taken:
    [Vocabulary_surj] below.) *)
Record Vocabulary (V : gmap string Z) : Prop := {
  vocab_range : ∀ w i, V !! w = Some i → 0 ≤ i < Z.of_nat (size V);
  vocab_inj : ∀ w1 w2 i, V !! w1 = Some i → V !! w2 = Some i → w1 = w2
}.

(** ** bag_of_words *)

(** *** Tensors *)

(** The value a float32 takes when the integer [z] is stored in it:
    [z] itself when it fits the 24-bit significand, otherwise the nearest
    multiple of the power of two in force at that magnitude, ties going to
    the even significand. (Counts are lengths of lists, far below the
    largest float32, so no infinity arises.) *)
Definition float32_of_int (z : Z) : Z :=
  let a := Z.abs z in
  let e := Z.log2 a - 23 in
  if e <=? 0 then z
  else
    let q := Z.shiftr a e in
    let r := Z.land a (Z.ones e) in
    let half := Z.shiftl 1 (e - 1) in
    let q' := if (half <? r) || ((r =? half) && Z.odd q) then q + 1 else q in
    Z.sgn z * Z.shiftl q' e.

(** A one-dimensional tensor of the default dtype, float32, all of whose
    entries are integral: the list of the integers its entries hold. *)
Abbreviation tensor := (list Z).

(** [torch.zeros(n)]: [n] entries [0.] of the default dtype. *)
Definition zeros (n : nat) : tensor := replicate n 0.

(** The position an integer index designates in a dimension of size [n]:
    a negative index counts from the end; an index outside
    [-n .. n - 1] designates none. *)
Definition normalize_index (n : nat) (idx : Z) : option nat :=
  let pos := if idx <? 0 then idx + Z.of_nat n else idx in
  if (0 <=? pos) && (pos <? Z.of_nat n) then Some (Z.to_nat pos) else None.

(** The exception of an index that designates no position: an
    [IndexError] when the index fits a signed integer of 64 bits, and the
    overflow of its conversion when it does not. *)
Definition index_exn (idx : Z) : exn :=
  if (- 2 ^ 63 <=? idx) && (idx <? 2 ^ 63) then IndexError else IndexOverflow.

(** [t[idx] = v] for integers [idx] and [v]: the entry at the position of
    [idx] becomes [v] converted to float32; an index that designates no
    position raises. (A tensor has fewer than [2 ^ 63] entries, so an index
    that designates a position fits 64 bits.) *)
Definition setitem (t : tensor) (idx : Z) (v : Z) : result tensor :=
  match normalize_index (length t) idx with
  | Some p => Ok (<[p := float32_of_int v]> t)
  | None => Raise (index_exn idx)
  end.

(** *** Counter *)

(** [c[w] = c.get(w, 0) + 1] on a dict kept as the list of its items in
    insertion order. *)
Fixpoint counter_incr (w : string) (c : list (string * Z)) : list (string * Z) :=
  match c with
  | [] => [(w, 1)]
  | (k, n) :: c' =>
      if decide (k = w) then (k, n + 1) :: c' else (k, n) :: counter_incr w c'
  end.

(** [Counter(text).items()]: the distinct words in the order of their
    first occurrence, each with its number of occurrences. *)
Definition Counter (text : list string) : list (string * Z) :=
  foldl (λ c w, counter_incr w c) [] text.

(** *** Loops *)

(** [for x in l: s = body(s, x)], stopping at the first exception. *)
Fixpoint for_in {A S} (body : S → A → result S) (l : list A) (s : S) : result S :=
  match l with
  | [] => Ok s
  | x :: l' => s' ← body s x; for_in body l' s'
  end.

Definition bag_of_words (text : list string) (vocab : gmap string Z)
    (binary : bool) : result tensor :=
  let bow := zeros (size vocab) in
  if binary then
    for_in (λ bow word,
              match vocab !! word with
              | Some i => setitem bow i 1
              | None => Ok bow
              end) text bow
  else
    let word_counts := Counter text in
    for_in (λ bow '(word, count),
              match vocab !! word with
              | Some i => setitem bow i count
              | None => Ok bow
              end) word_counts bow.

(** Number of occurrences of [w] in [text]. *)
Definition occurrences (w : string) (text : list string) : Z :=
  Z.of_nat (length (filter (λ x, x = w) text)).


(** ** The vocabulary of the claims about the reader *)

(** The lines of a file, as [readlines] returns them. *)
Definition file_lines (text : string) : list string :=
  Py.lines_keepends (Py.universal_newlines text).

(** The part of [s] before the first [c] (all of [s] when it has none). *)
Fixpoint before (c : ascii) (s : string) : string :=
  match s with
  | EmptyString => EmptyString
  | String a s' => if Ascii.eqb a c then EmptyString else String a (before c s')
  end.

(** The part of [s] after the first [c], when there is one. *)
Fixpoint after (c : ascii) (s : string) : option string :=
  match s with
  | EmptyString => None
  | String a s' => if Ascii.eqb a c then Some s' else after c s'
  end.

Fixpoint count_char (c : ascii) (s : string) : nat :=
  match s with
  | EmptyString => O
  | String a s' => (if Ascii.eqb a c then 1 else 0)%nat + count_char c s'
  end.

(** Number of tab characters of a line. *)
Definition tab_count (line : string) : nat := count_char Py.TAB line.

(** The text field: what comes before the first tab. *)
Definition text_field (line : string) : string := before Py.TAB line.

(** The second tab-separated field: what lies between the first tab and
    the next one (or the end of the line). *)
Definition label_field (line : string) : option string :=
  before Py.TAB <$> after Py.TAB line.

(** A line is malformed when it has no tab, or when its second field is
    one that [int] refuses. *)
Definition no_tab (line : string) : bool := bool_decide (tab_count line = O).

Definition bad_label (line : string) : bool :=
  match label_field line with
  | Some field => bool_decide (Py.int_opt field = None)
  | None => false
  end.

Definition malformed (line : string) : bool := no_tab line || bad_label line.

(** A well-formed line as C4 words it: a text field, a single tab, and a
    label field that is an integer in base 10, of any length. *)
Definition base10_line (line : string) : bool :=
  bool_decide (tab_count line = 1%nat) &&
  match label_field line with
  | Some field => bool_decide (is_Some (Py.int_literal field))
  | None => false
  end.

(** The number of digits of the label of a line. *)
Definition label_digits (line : string) : Z :=
  match label_field line with
  | Some field => Py.literal_digits field
  | None => 0
  end.

(** A line with nothing on it but its terminator. *)
Definition empty_line (line : string) : bool :=
  bool_decide (line = String Py.LF EmptyString).

(** The reading of the spec under which empty lines are passed over:
    the lines that are not empty are converted, the others dropped. *)
Definition read_nonempty_lines (tokenize : string → list string)
    (fs : Py.filesystem) (infile : string) : result (list SentimentExample) :=
  lines ← Py.open_readlines fs infile;
  mapM (parse_line tokenize) (filter (λ l, empty_line l = false) lines).

(** ** Sample inputs *)

Definition tsv (text lbl : string) : string :=
  text +:+ String Py.TAB lbl +:+ String Py.LF EmptyString.

(** The two-line corpus of the spec's example scenario. *)
Definition corpus : string := tsv "good movie" "1" +:+ tsv "bad movie" "0".

(** The same corpus with an empty line between the two. *)
Definition corpus_gap : string :=
  tsv "good movie" "1" +:+ String Py.LF EmptyString +:+ tsv "bad movie" "0".

(** A corpus whose second line has a label that is no integer. *)
Definition corpus_bad_label : string :=
  tsv "good movie" "1" +:+ tsv "bad movie" "zero".

(** The string of [n] characters [c]. *)
Fixpoint repeat_char (n : nat) (c : ascii) : string :=
  match n with
  | O => EmptyString
  | S n' => String c (repeat_char n' c)
  end.

(** A corpus of one line, whose label has one digit more than [int]
    accepts. *)
Definition corpus_long_label : string :=
  tsv "long" (repeat_char (Z.to_nat (Py.max_str_digits + 1)) "1").

(** A corpus whose only line has three fields. *)
Definition corpus_extra : string :=
  tsv "good movie" ("1" +:+ String Py.TAB "ignored").

(** The file system that holds one file; no other path names a file. *)
Definition one_file (path text : string) : Py.filesystem :=
  {| Py.contents := λ p, if String.eqb p path then Some text else None;
     Py.open_error := λ _, OSError |}.

(** ** The vocabulary of the claims about the vectorizer *)

(** A set order to compute with: the distinct words in the order in which
    [remove_dups] leaves them. *)
#[global] Instance sample_order : SetOrder := {|
  list_set := remove_dups;
  list_set_NoDup := NoDup_remove_dups;
  list_set_elem := elem_of_remove_dups
|}.

(** The distinct words of a text in the order of their first occurrence:
    the order in which a [Counter] holds them. *)
Definition first_occurrences (text : list string) : list string :=
  foldl (λ ks w, if decide (w ∈ ks) then ks else ks ++ [w]) [] text.

(** The loop that both modes of [bag_of_words] run: for each word of [ws]
    that the vocabulary knows, store [val word] at the word's index. *)
Definition store_loop (vocab : gmap string Z) (val : string → Z)
    (ws : list string) (bow : tensor) : result tensor :=
  for_in (λ bow w,
            match vocab !! w with
            | Some i => setitem bow i (val w)
            | None => Ok bow
            end) ws bow.

(** Whether the word [w] is stored at position [p] of a tensor of size
    [n]. *)
Definition writes_to (vocab : gmap string Z) (n p : nat) (w : string) : bool :=
  bool_decide (vocab !! w ≫= normalize_index n = Some p).

(** The largest count a float32 entry holds exactly, with all those below
    it. *)
Definition exact_max : Z := 2 ^ 24.

(** C1 as it is stated, for one text and one vocabulary: the call returns
    a vector as long as the vocabulary in which the entry of each word is
    the number of its occurrences. *)
Definition counts_exactly (text : list string) (vocab : gmap string Z) : Prop :=
  ∃ bow, bag_of_words text vocab false = Ok bow ∧
    length bow = size vocab ∧
    ∀ w i, vocab !! w = Some i →
      bow !! Z.to_nat i = Some (occurrences w text).


(** A vocabulary of one word, and a text that repeats it once more than a
    float32 can count. *)
Definition vocab_a : gmap string Z := {[ "a" := 0 ]}.
Definition many_a : list string := replicate (Z.to_nat (exact_max + 1)) "a".

(** Two words at one index, the second of them repeated as often. *)
Definition vocab_shared : gmap string Z := {[ "a" := 0; "b" := 0 ]}.

(** A mapping whose only index is no position of a vector of length 1. *)
Definition vocab_far : gmap string Z := {[ "a" := 5 ]}.

(** ** The vocabulary of the further properties *)

(** The tokens of a text that the vocabulary knows, in their order. *)
Definition known (vocab : gmap string Z) (text : list string) : list string :=
  filter (λ w, is_Some (vocab !! w)) text.

(** The sum of the entries of a tensor. *)
Definition total (t : tensor) : Z := foldr Z.add 0 t.

(** The file system that holds the given files, by path, and no other. *)
Definition files (l : list (string * string)) : Py.filesystem :=
  {| Py.contents := λ p, (list_to_map l : gmap string string) !! p;
     Py.open_error := λ _, OSError |}.

(** A corpus in two parts, whole in a third file. *)
Definition split_corpus : Py.filesystem :=
  files [("part1.tsv", tsv "good movie" "1");
         ("part2.tsv", tsv "bad movie" "0");
         ("whole.tsv", corpus)].

(** A one-line corpus without its final line feed, and with it. *)
Definition cut_corpus : Py.filesystem :=
  files [("cut.tsv", "good movie" +:+ String Py.TAB "1");
         ("full.tsv", tsv "good movie" "1")].

(** A text with each line feed written as a carriage return and a line
    feed. *)
Fixpoint to_crlf (text : string) : string :=
  match text with
  | EmptyString => EmptyString
  | String c s =>
      if Ascii.eqb c Py.LF then String Py.CR (String Py.LF (to_crlf s))
      else String c (to_crlf s)
  end.

(** The corpus of the example scenario, its lines ended both ways. *)
Definition crlf_corpus : Py.filesystem :=
  files [("unix.tsv", corpus); ("dos.tsv", to_crlf corpus)].

(** The last character of a string, when it has one. *)
Fixpoint last_char (s : string) : option ascii :=
  match s with
  | EmptyString => None
  | String c EmptyString => Some c
  | String _ s' => last_char s'
  end.

(** A text that ends in the middle of a line: it is not empty and its last
    character ends no line. *)
Definition unterminated (text : string) : Prop :=
  ∃ c, last_char text = Some c ∧ c ≠ Py.LF ∧ c ≠ Py.CR.

(** A text whose last line is complete: it is empty or ends with a line
    feed. *)
Definition terminated (text : string) : Prop :=
  text = EmptyString ∨ last_char text = Some Py.LF.

(** ** Facts about the error monad and the loops *)


Lemma bind_Raise {A B} (f : A → result B) (e : exn) : (Raise e ≫= f) = Raise e.
Proof. reflexivity. Qed.

Lemma is_Ok_Ok {A} (a : A) : is_Ok (Ok a).
Proof. by exists a. Qed.

Lemma not_is_Ok_Raise {A} (e : exn) : ¬ is_Ok (@Raise A e).
Proof. by intros [a Ha]. Qed.

Section mapM_result.
Context {A B : Type} (f : A → result B).

Lemma mapM_Ok_Forall2 (l : list A) (k : list B) :
  mapM f l = Ok k ↔ Forall2 (λ x y, f x = Ok y) l k.
Proof.
  revert k. induction l as [|x l IH]; intros k; simpl.
  - split.
    + intros [= <-]. constructor.
    + by intros ->%Forall2_nil_inv_l.
  - split.
    + destruct (f x) as [y|e] eqn:Hx; simpl; [|done].
      destruct (mapM f l) as [k'|e] eqn:Hl; simpl; [|done].
      intros [= <-]. constructor; [done|]. by apply IH.
    + intros (y & k' & Hx & Hl & ->)%Forall2_cons_inv_l.
      rewrite Hx. simpl. apply IH in Hl. by rewrite Hl.
Qed.

Lemma mapM_Ok_length (l : list A) (k : list B) :
  mapM f l = Ok k → length k = length l.
Proof. intros H%mapM_Ok_Forall2. symmetry. by eapply Forall2_length. Qed.

Lemma mapM_Ok_lookup (l : list A) (k : list B) (i : nat) (x : A) :
  mapM f l = Ok k → l !! i = Some x → ∃ y, k !! i = Some y ∧ f x = Ok y.
Proof.
  intros H%mapM_Ok_Forall2 Hi.
  destruct (Forall2_lookup_l _ _ _ _ _ H Hi) as (y & ? & ?). eauto.
Qed.

(** The first element that raises decides the outcome. *)
Lemma mapM_Raise_first (pre post : list A) (x : A) (e : exn) :
  Forall (λ a, is_Ok (f a)) pre → f x = Raise e →
  mapM f (pre ++ x :: post) = Raise e.
Proof.
  intros Hpre Hx. induction Hpre as [|a pre [b Hb] _ IH]; simpl.
  - by rewrite Hx.
  - rewrite Hb. simpl. by rewrite IH.
Qed.

Lemma mapM_all_Ok (l : list A) :
  Forall (λ a, is_Ok (f a)) l → is_Ok (mapM f l).
Proof.
  induction 1 as [|a l [b Hb] _ [k Hk]]; simpl.
  - apply is_Ok_Ok.
  - rewrite Hb. simpl. rewrite Hk. apply is_Ok_Ok.
Qed.

(** A list either converts as a whole or splits at its first failure. *)
Lemma mapM_first_failure (l : list A) :
  Forall (λ a, is_Ok (f a)) l ∨
  ∃ pre x post e, l = pre ++ x :: post ∧
    Forall (λ a, is_Ok (f a)) pre ∧ f x = Raise e.
Proof.
  induction l as [|a l IH].
  - left. constructor.
  - destruct (f a) as [b|e] eqn:Ha.
    + destruct IH as [IH|(pre & x & post & e & -> & Hpre & Hx)].
      * left. constructor; [by exists b|done].
      * right. exists (a :: pre), x, post, e. split; [done|].
        split; [|done]. constructor; [by exists b|done].
    + right. exists [], a, l, e. split; [done|]. split; [constructor|done].
Qed.

End mapM_result.

(** ** Facts about [split] and the fields of a line *)

Lemma split_unfold (c : ascii) (s : string) :
  Py.split c s =
  before c s :: match after c s with Some r => Py.split c r | None => [] end.
Proof.
  induction s as [|a s IH]; simpl; [done|].
  destruct (Ascii.eqb a c); [done|]. by rewrite IH.
Qed.

Lemma split_lookup_0 (c : ascii) (s : string) :
  Py.split c s !! 0%nat = Some (before c s).
Proof. by rewrite split_unfold. Qed.

Lemma split_lookup_1 (c : ascii) (s : string) :
  Py.split c s !! 1%nat = before c <$> after c s.
Proof.
  rewrite split_unfold. destruct (after c s) as [r|]; simpl; [|done].
  by rewrite split_unfold.
Qed.

Lemma length_split (c : ascii) (s : string) :
  length (Py.split c s) = S (count_char c s).
Proof.
  induction s as [|a s IH]; simpl; [done|].
  destruct (Ascii.eqb a c); simpl; [by rewrite IH|].
  destruct (Py.split c s); simpl in *; lia.
Qed.

Lemma after_None (c : ascii) (s : string) :
  after c s = None ↔ count_char c s = O.
Proof.
  induction s as [|a s IH]; simpl; [done|].
  destruct (Ascii.eqb a c); simpl; [split; [done|lia]|done].
Qed.

Lemma after_Some_count (c : ascii) (s r : string) :
  after c s = Some r → count_char c s = S (count_char c r).
Proof.
  induction s as [|a s IH]; simpl; [done|].
  destruct (Ascii.eqb a c); simpl; [by intros [= ->]|done].
Qed.

Lemma count_char_before (c : ascii) (s : string) :
  count_char c (before c s) = O.
Proof.
  induction s as [|a s IH]; simpl; [done|].
  destruct (Ascii.eqb a c) eqn:E; simpl; [done|]. by rewrite E.
Qed.

Lemma before_after (c : ascii) (s r : string) :
  after c s = Some r → s = before c s +:+ String c r.
Proof.
  induction s as [|a s IH]; simpl; [done|].
  destruct (Ascii.eqb a c) eqn:E; simpl.
  - intros [= ->]. by apply Ascii.eqb_eq in E as ->.
  - intros H. change (String a s = String a (before c s +:+ String c r)).
    f_equal. by apply IH.
Qed.

Lemma label_field_None (line : string) :
  label_field line = None ↔ tab_count line = O.
Proof.
  unfold label_field, tab_count. rewrite <-after_None.
  destruct (after Py.TAB line); simpl; split; done.
Qed.

Lemma no_tab_true (line : string) :
  no_tab line = true ↔ label_field line = None.
Proof.
  unfold no_tab. rewrite bool_decide_eq_true. symmetry. apply label_field_None.
Qed.

(** A line with at least two tabs is its text field, a tab, its second
    field, a tab, and a remainder. *)
Lemma two_tabs_decompose (line field : string) :
  (2 ≤ tab_count line)%nat → label_field line = Some field →
  ∃ rest, line =
    text_field line +:+ String Py.TAB (field +:+ String Py.TAB rest).
Proof.
  unfold tab_count, label_field, text_field. intros Hn Hf.
  destruct (after Py.TAB line) as [r|] eqn:Hr; simpl in Hf; [|done].
  injection Hf as <-.
  pose proof (after_Some_count _ _ _ Hr) as Hc.
  destruct (after Py.TAB r) as [rest|] eqn:Hrest.
  - exists rest. rewrite <-(before_after _ _ _ Hrest). by apply before_after.
  - apply after_None in Hrest. lia.
Qed.

(** ** Facts about the label of a line *)

(** [int] accepts a literal of at most [max_str_digits] digits, and gives
    the integer that the literal denotes. *)
Lemma int_opt_Some (s : string) (n : Z) :
  Py.int_opt s = Some n ↔
  Py.int_literal s = Some n ∧ Py.literal_digits s ≤ Py.max_str_digits.
Proof.
  unfold Py.int_opt.
  destruct (Z.ltb_spec Py.max_str_digits (Py.literal_digits s)).
  - split; [done|]. intros [_ ?]. lia.
  - split; [done|]. by intros [? _].
Qed.

Lemma base10_line_not_malformed (line : string) :
  base10_line line = true → label_digits line ≤ Py.max_str_digits →
  malformed line = false.
Proof.
  unfold base10_line, label_digits, malformed, no_tab, bad_label.
  intros [H1%bool_decide_eq_true H2]%andb_true_iff Hd.
  destruct (label_field line) as [field|]; [|done].
  apply bool_decide_eq_true in H2 as [n Hn].
  apply orb_false_iff. split.
  - apply bool_decide_eq_false. lia.
  - apply bool_decide_eq_false.
    by rewrite (proj2 (int_opt_Some field n) (conj Hn Hd)).
Qed.

Lemma base10_lines_Forall (lines : list string) :
  forallb (λ l, base10_line l && (label_digits l <=? Py.max_str_digits))
    lines = true →
  Forall (λ l, base10_line l = true ∧ label_digits l ≤ Py.max_str_digits)
    lines.
Proof.
  induction lines as [|l lines IH]; simpl; [constructor|].
  intros [[? ?%Z.leb_le]%andb_true_iff ?]%andb_true_iff.
  constructor; [done|by apply IH].
Qed.

(** ** Facts about [parse_line] *)

Section ReaderFacts.
Variable tokenize : string → list string.

Lemma parse_line_unfold (line : string) :
  parse_line tokenize line =
  match label_field line with
  | None => Raise IndexError
  | Some field =>
      match Py.int_opt field with
      | Some n => Ok (mkSentimentExample (tokenize (text_field line)) n)
      | None => Raise ValueError
      end
  end.
Proof.
  unfold parse_line, Py.getitem, label_field, text_field, Py.int.
  rewrite split_lookup_0, split_lookup_1. simpl.
  destruct (after Py.TAB line) as [r|]; simpl; [|done].
  by destruct (Py.int_opt (before Py.TAB r)).
Qed.

Lemma parse_line_no_tab (line : string) :
  no_tab line = true → parse_line tokenize line = Raise IndexError.
Proof. intros H%no_tab_true. by rewrite parse_line_unfold, H. Qed.

Lemma parse_line_bad_label (line : string) :
  bad_label line = true → parse_line tokenize line = Raise ValueError.
Proof.
  unfold bad_label. rewrite parse_line_unfold.
  destruct (label_field line) as [field|]; [|done].
  intros H%bool_decide_eq_true. by rewrite H.
Qed.

Lemma parse_line_good (line : string) :
  malformed line = false →
  ∃ field n, label_field line = Some field ∧ Py.int_opt field = Some n ∧
    parse_line tokenize line =
      Ok (mkSentimentExample (tokenize (text_field line)) n).
Proof.
  unfold malformed, bad_label. intros [Hn Hb]%orb_false_iff.
  rewrite parse_line_unfold.
  destruct (label_field line) as [field|] eqn:Hf.
  - apply bool_decide_eq_false in Hb.
    destruct (Py.int_opt field) as [n|] eqn:Hi; [|done]. by exists field, n.
  - apply no_tab_true in Hf. congruence.
Qed.

Lemma parse_line_Ok_inv (line : string) (ex : SentimentExample) :
  parse_line tokenize line = Ok ex →
  ∃ field n, label_field line = Some field ∧ Py.int_opt field = Some n ∧
    ex = mkSentimentExample (tokenize (text_field line)) n.
Proof.
  rewrite parse_line_unfold.
  destruct (label_field line) as [field|]; [|done].
  destruct (Py.int_opt field) as [n|] eqn:Hn; [|done].
  intros [= <-]. by exists field, n.
Qed.

Lemma parse_line_malformed (line : string) :
  malformed line = true →
  parse_line tokenize line =
    Raise (if no_tab line then IndexError else ValueError).
Proof.
  unfold malformed. destruct (no_tab line) eqn:Hn; simpl.
  - intros _. by apply parse_line_no_tab.
  - apply parse_line_bad_label.
Qed.

Lemma good_lines_Ok (lines : list string) :
  Forall (λ l, malformed l = false) lines →
  Forall (λ l, is_Ok (parse_line tokenize l)) lines.
Proof.
  intros Hall. eapply Forall_impl; [exact Hall|]. simpl.
  intros l (field & n & _ & _ & H)%parse_line_good.
  rewrite H. apply is_Ok_Ok.
Qed.

Lemma read_unfold (fs : Py.filesystem) (infile text : string) :
  fs infile = Some text →
  read_sentiment_examples tokenize fs infile =
    mapM (parse_line tokenize) (file_lines text).
Proof.
  intros H. unfold read_sentiment_examples, Py.open_readlines. by rewrite H.
Qed.

(** What a successful read returns: one example per line, in order. *)
Lemma read_Ok_inv (fs : Py.filesystem) (infile text : string)
    (examples : list SentimentExample) :
  fs infile = Some text →
  read_sentiment_examples tokenize fs infile = Ok examples →
  length examples = length (file_lines text) ∧
  ∀ i line, file_lines text !! i = Some line →
    ∃ field n, label_field line = Some field ∧ Py.int_opt field = Some n ∧
      examples !! i =
        Some (mkSentimentExample (tokenize (text_field line)) n).
Proof.
  intros Hfs. rewrite (read_unfold _ _ _ Hfs). intros Hok. split.
  - by eapply mapM_Ok_length.
  - intros i line Hi.
    destruct (mapM_Ok_lookup _ _ _ _ _ Hok Hi) as (ex & Hex & Hp).
    apply parse_line_Ok_inv in Hp as (field & n & ? & ? & ->).
    by exists field, n.
Qed.

End ReaderFacts.

(** ** The reader: claims *)

Lemma first_such {A} (P : A → bool) (l : list A) :
  Exists (λ x, P x = true) l →
  ∃ pre x post, l = pre ++ x :: post ∧
    Forall (λ y, P y = false) pre ∧ P x = true.
Proof.
  induction l as [|a l IH]; intros HE; [by apply Exists_nil in HE|].
  destruct (P a) eqn:Ha.
  - exists [], a, l. split; [done|]. split; [constructor|done].
  - apply Exists_cons in HE as [HE|HE]; [congruence|].
    destruct (IH HE) as (pre & x & post & -> & Hpre & Hx).
    exists (a :: pre), x, post. split; [done|]. split; [|done].
    by constructor.
Qed.

Lemma forallb_Forall_true {A} (P : A → bool) (l : list A) :
  forallb P l = true → Forall (λ x, P x = true) l.
Proof.
  induction l as [|x l IH]; simpl; [constructor|].
  intros [? ?]%andb_true_iff. constructor; [done|by apply IH].
Qed.

Lemma existsb_Exists_true {A} (P : A → bool) (l : list A) :
  existsb P l = true → Exists (λ x, P x = true) l.
Proof.
  induction l as [|x l IH]; simpl; [done|].
  intros [?|?]%orb_true_iff; [by left|right; by apply IH].
Qed.

Lemma empty_line_no_tab (line : string) :
  empty_line line = true → no_tab line = true.
Proof. unfold empty_line. by intros ->%bool_decide_eq_true. Qed.

(** C4, as the code has it. For a file all of whose N lines are well
    formed (a text field, a single tab, a label field that is an integer
    in base 10) and have a label of at most 4300 digits, the most that
    [int] accepts, [read_sentiment_examples] returns exactly N examples in
    the order of the lines: the i-th example has the tokens of the i-th
    line's text field and, as its label, the integer that the line's
    second tab-separated field denotes. *)
Theorem read_well_formed_file (tokenize : string → list string)
    (fs : Py.filesystem) (infile text : string) :
  fs infile = Some text →
  Forall (λ l, base10_line l = true ∧ label_digits l ≤ Py.max_str_digits)
    (file_lines text) →
  ∃ examples,
    read_sentiment_examples tokenize fs infile = Ok examples ∧
    length examples = length (file_lines text) ∧
    ∀ i line, file_lines text !! i = Some line →
      ∃ field n, label_field line = Some field ∧
        Py.int_literal field = Some n ∧
        examples !! i =
          Some (mkSentimentExample (tokenize (text_field line)) n).
Proof.
  intros Hfs Hwf.
  assert (Hgood : Forall (λ l, malformed l = false) (file_lines text)).
  { eapply Forall_impl; [exact Hwf|]. simpl.
    intros l [? ?]. by apply base10_line_not_malformed. }
  destruct (mapM_all_Ok _ _ (good_lines_Ok tokenize _ Hgood)) as [exs Hexs].
  rewrite <-(read_unfold tokenize _ _ _ Hfs) in Hexs.
  exists exs. split; [done|].
  destruct (read_Ok_inv tokenize _ _ _ _ Hfs Hexs) as [Hlen Hall].
  split; [done|]. intros i line Hi.
  destruct (Hall i line Hi) as (field & n & Hf & Hn & Hex).
  exists field, n. split; [done|]. split; [|done].
  by apply int_opt_Some in Hn as [? _].
Qed.

Lemma read_well_formed_file_witness :
  ∃ examples,
    read_sentiment_examples split_whitespace
      (one_file "corpus.tsv" corpus) "corpus.tsv" = Ok examples ∧
    length examples = 2%nat.
Proof.
  destruct (read_well_formed_file split_whitespace
              (one_file "corpus.tsv" corpus) "corpus.tsv" corpus)
    as (exs & Hr & Hl & _).
  - reflexivity.
  - apply base10_lines_Forall. vm_compute. reflexivity.
  - exists exs. split; [exact Hr | exact Hl].
Defined.

(** C4, as stated, fails: a line whose label is an integer in base 10 of
    4301 digits is well formed, and the call raises a value error on
    it. *)
Lemma long_label_raises :
  Forall (λ l, base10_line l = true) (file_lines corpus_long_label) ∧
  length (file_lines corpus_long_label) = 1%nat ∧
  read_sentiment_examples split_whitespace
    (one_file "corpus.tsv" corpus_long_label) "corpus.tsv" =
    Raise ValueError.
Proof.
  split; [apply forallb_Forall_true; vm_compute; reflexivity|].
  split; vm_compute; reflexivity.
Qed.

(** C6, as the code has it. Every line of the file is converted, none is
    passed over: a read that succeeds returns one example per line, in
    order, each from the text field and second field of its line. An empty
    line has no tab, so a file that holds one cannot be read: the call
    raises, and the exception is an index error when the lines before the
    empty one are good. *)
Theorem read_every_line (tokenize : string → list string)
    (fs : Py.filesystem) (infile text : string) :
  fs infile = Some text →
  (∀ examples,
     read_sentiment_examples tokenize fs infile = Ok examples →
     length examples = length (file_lines text) ∧
     ∀ i line, file_lines text !! i = Some line →
       ∃ field n, label_field line = Some field ∧ Py.int_opt field = Some n ∧
         examples !! i =
           Some (mkSentimentExample (tokenize (text_field line)) n)) ∧
  (∀ pre line post,
     file_lines text = pre ++ line :: post → empty_line line = true →
     ¬ is_Ok (read_sentiment_examples tokenize fs infile) ∧
     (Forall (λ l, malformed l = false) pre →
      read_sentiment_examples tokenize fs infile = Raise IndexError)).
Proof.
  intros Hfs. split.
  - intros examples. by apply read_Ok_inv.
  - intros pre line post Hlines Hempty.
    pose proof (empty_line_no_tab _ Hempty) as Hno. split.
    + intros [exs Hexs].
      destruct (read_Ok_inv tokenize _ _ _ _ Hfs Hexs) as [_ Hall].
      destruct (Hall (length pre) line) as (field & n & Hf & _).
      { rewrite Hlines. by apply list_lookup_middle. }
      apply no_tab_true in Hno. congruence.
    + intros Hpre. rewrite (read_unfold tokenize _ _ _ Hfs), Hlines.
      apply mapM_Raise_first; [by apply good_lines_Ok|].
      by apply parse_line_no_tab.
Qed.

Lemma read_every_line_witness :
  read_sentiment_examples split_whitespace
    (one_file "corpus.tsv" corpus_gap) "corpus.tsv" = Raise IndexError.
Proof.
  refine (proj2 (proj2 (read_every_line split_whitespace
            (one_file "corpus.tsv" corpus_gap) "corpus.tsv" corpus_gap
            eq_refl)
          [tsv "good movie" "1"] (String Py.LF EmptyString)
          [tsv "bad movie" "0"] eq_refl eq_refl) _).
  constructor; [vm_compute; reflexivity|constructor].
Defined.

(** C6, as stated, fails: on the corpus with an empty line between its
    two good lines, passing over the empty line would give the two
    examples, whereas the call raises an index error. *)
Lemma empty_line_not_skipped :
  read_nonempty_lines split_whitespace
    (one_file "corpus.tsv" corpus_gap) "corpus.tsv" =
    Ok [mkSentimentExample ["good"; "movie"] 1;
        mkSentimentExample ["bad"; "movie"] 0] ∧
  read_sentiment_examples split_whitespace
    (one_file "corpus.tsv" corpus_gap) "corpus.tsv" = Raise IndexError ∧
  read_sentiment_examples split_whitespace
    (one_file "corpus.tsv" corpus_gap) "corpus.tsv" ≠
  read_nonempty_lines split_whitespace
    (one_file "corpus.tsv" corpus_gap) "corpus.tsv".
Proof. repeat split; [vm_compute; reflexivity ..|vm_compute; discriminate]. Qed.

(** C7. A file with a malformed line (no tab, or a second field that is
    no integer) cannot be read. The call returns no list: it raises at the
    first malformed line, an index error when that line has no tab and a
    value error otherwise, whatever the lines around it are. *)
Theorem read_fail_fast (tokenize : string → list string)
    (fs : Py.filesystem) (infile text : string) :
  fs infile = Some text →
  Exists (λ l, malformed l = true) (file_lines text) →
  ∃ pre bad post,
    file_lines text = pre ++ bad :: post ∧
    Forall (λ l, malformed l = false) pre ∧ malformed bad = true ∧
    read_sentiment_examples tokenize fs infile =
      Raise (if no_tab bad then IndexError else ValueError) ∧
    ¬ is_Ok (read_sentiment_examples tokenize fs infile).
Proof.
  intros Hfs (pre & bad & post & Hlines & Hpre & Hbad)%first_such.
  exists pre, bad, post. split; [done|]. split; [done|]. split; [done|].
  assert (Hr : read_sentiment_examples tokenize fs infile =
               Raise (if no_tab bad then IndexError else ValueError)).
  { rewrite (read_unfold tokenize _ _ _ Hfs), Hlines.
    apply mapM_Raise_first; [by apply good_lines_Ok|].
    by apply parse_line_malformed. }
  split; [done|]. rewrite Hr. apply not_is_Ok_Raise.
Qed.

Lemma read_fail_fast_witness :
  ¬ is_Ok (read_sentiment_examples split_whitespace
             (one_file "corpus.tsv" corpus_bad_label) "corpus.tsv").
Proof.
  destruct (read_fail_fast split_whitespace
              (one_file "corpus.tsv" corpus_bad_label) "corpus.tsv"
              corpus_bad_label) as (pre & bad & post & _ & _ & _ & _ & Hno).
  - reflexivity.
  - apply existsb_Exists_true. vm_compute. reflexivity.
  - exact Hno.
Defined.

(** C9. A line with two or more tabs whose second field is an integer is
    accepted: it is its text field, a tab, that second field, a tab and a
    remainder, and its example has the tokens of the text field and the
    integer of the second field, whatever the remainder is. In a file it
    takes its place among the examples of the other lines. *)
Theorem extra_fields_ignored (tokenize : string → list string)
    (fs : Py.filesystem) (infile text : string)
    (pre post : list string) (line field : string) (n : Z) :
  fs infile = Some text →
  file_lines text = pre ++ line :: post →
  (2 ≤ tab_count line)%nat →
  label_field line = Some field →
  Py.int_opt field = Some n →
  (∃ rest, line =
     text_field line +:+ String Py.TAB (field +:+ String Py.TAB rest)) ∧
  tab_count (text_field line) = O ∧ tab_count field = O ∧
  parse_line tokenize line =
    Ok (mkSentimentExample (tokenize (text_field line)) n) ∧
  ∀ before_it after_it,
    mapM (parse_line tokenize) pre = Ok before_it →
    mapM (parse_line tokenize) post = Ok after_it →
    read_sentiment_examples tokenize fs infile =
      Ok (before_it ++
          mkSentimentExample (tokenize (text_field line)) n :: after_it).
Proof.
  intros Hfs Hlines Htabs Hfield Hint.
  assert (Hp : parse_line tokenize line =
               Ok (mkSentimentExample (tokenize (text_field line)) n)).
  { by rewrite parse_line_unfold, Hfield, Hint. }
  split; [by apply two_tabs_decompose|].
  split; [apply count_char_before|].
  split.
  { unfold label_field in Hfield.
    destruct (after Py.TAB line) as [r|]; simpl in Hfield; [|done].
    injection Hfield as <-. apply count_char_before. }
  split; [done|].
  intros before_it after_it Hb Ha.
  rewrite (read_unfold tokenize _ _ _ Hfs), Hlines.
  apply mapM_Ok_Forall2, Forall2_app; [by apply mapM_Ok_Forall2|].
  constructor; [done|]. by apply mapM_Ok_Forall2.
Qed.

Lemma extra_fields_ignored_witness :
  read_sentiment_examples split_whitespace
    (one_file "corpus.tsv" corpus_extra) "corpus.tsv" =
    Ok [mkSentimentExample ["good"; "movie"] 1].
Proof.
  refine (proj2 (proj2 (proj2 (proj2
            (extra_fields_ignored split_whitespace
               (one_file "corpus.tsv" corpus_extra) "corpus.tsv" corpus_extra
               [] [] corpus_extra "1" 1 eq_refl eq_refl _ eq_refl eq_refl))))
            [] [] eq_refl eq_refl).
  vm_compute. lia.
Defined.

(** ** Facts about [build_vocab] *)

Lemma enumerate_snoc {A} (l : list A) (x : A) :
  enumerate (l ++ [x]) = enumerate l ++ [(Z.of_nat (length l), x)].
Proof.
  unfold enumerate. rewrite imap_app. simpl. by rewrite Nat.add_0_r.
Qed.

Lemma dict_of_enumerate_snoc (l : list string) (x : string) :
  dict_of_enumerate (enumerate (l ++ [x])) =
  <[x := Z.of_nat (length l)]> (dict_of_enumerate (enumerate l)).
Proof.
  unfold dict_of_enumerate. by rewrite enumerate_snoc, foldl_app.
Qed.

(** The dictionary built from a list without repetition maps each word to
    its position in the list, and nothing else. *)
Lemma dict_of_enumerate_lookup (l : list string) (w : string) (i : Z) :
  NoDup l →
  dict_of_enumerate (enumerate l) !! w = Some i ↔
  ∃ k : nat, i = Z.of_nat k ∧ l !! k = Some w.
Proof.
  induction l as [|x l IH] using rev_ind; intros Hnd.
  - split; [done|]. by intros (k & _ & ?).
  - apply NoDup_app in Hnd as (Hl & Hx & _).
    rewrite dict_of_enumerate_snoc.
    destruct (decide (x = w)) as [->|Hne].
    + rewrite lookup_insert_eq. split.
      * intros [= <-]. exists (length l). split; [done|].
        by rewrite list_lookup_middle.
      * intros (k & -> & Hk). do 2 f_equal.
        destruct (decide (k < length l)%nat) as [Hlt|Hge].
        -- rewrite lookup_app_l in Hk by done.
           exfalso. apply (Hx w); [|apply list_elem_of_singleton; done].
           by eapply list_elem_of_lookup_2.
        -- apply lookup_lt_Some in Hk. rewrite length_app in Hk. simpl in Hk.
           lia.
    + rewrite lookup_insert_ne by done. rewrite (IH Hl). split.
      * intros (k & -> & Hk). exists k. split; [done|].
        rewrite lookup_app_l; [done|]. by eapply lookup_lt_Some.
      * intros (k & -> & Hk). exists k. split; [done|].
        destruct (decide (k < length l)%nat) as [Hlt|Hge].
        -- by rewrite lookup_app_l in Hk.
        -- rewrite lookup_app_r in Hk by lia.
           apply list_lookup_singleton_Some in Hk as [_ ?]. congruence.
Qed.

Lemma dict_of_enumerate_size (l : list string) :
  NoDup l → size (dict_of_enumerate (enumerate l)) = length l.
Proof.
  induction l as [|x l IH] using rev_ind; intros Hnd; [done|].
  apply NoDup_app in Hnd as (Hl & Hx & _).
  rewrite dict_of_enumerate_snoc, map_size_insert_None.
  - rewrite (IH Hl), length_app. simpl. lia.
  - destruct (dict_of_enumerate (enumerate l) !! x) as [i|] eqn:Hi; [|done].
    apply dict_of_enumerate_lookup in Hi as (k & _ & Hk); [|done].
    exfalso. apply (Hx x); [|apply list_elem_of_singleton; done].
    by eapply list_elem_of_lookup_2.
Qed.

Section VocabFacts.
Context `{SetOrder}.

Lemma list_set_length (xs : list string) :
  length (list_set xs) = size (list_to_set xs : gset string).
Proof.
  rewrite <-(size_list_to_set (C := gset string) (list_set xs))
    by apply list_set_NoDup.
  f_equal. apply set_eq. intros w.
  rewrite !elem_of_list_to_set. apply list_set_elem.
Qed.

Lemma build_vocab_lookup (examples : list SentimentExample) (w : string) (i : Z) :
  build_vocab examples !! w = Some i ↔
  ∃ k : nat, i = Z.of_nat k ∧ list_set (all_words examples) !! k = Some w.
Proof. apply dict_of_enumerate_lookup, list_set_NoDup. Qed.

Lemma build_vocab_size (examples : list SentimentExample) :
  size (build_vocab examples) =
  size (list_to_set (all_words examples) : gset string).
Proof.
  unfold build_vocab. rewrite dict_of_enumerate_size by apply list_set_NoDup.
  apply list_set_length.
Qed.

Lemma all_words_elem (examples : list SentimentExample) (w : string) :
  w ∈ all_words examples ↔ ∃ ex, ex ∈ examples ∧ w ∈ words ex.
Proof.
  unfold all_words. rewrite list_elem_of_bind. split.
  - intros (ex & Hw & Hex). by exists ex.
  - intros (ex & Hex & Hw). by exists ex.
Qed.

Lemma build_vocab_Vocabulary (examples : list SentimentExample) :
  Vocabulary (build_vocab examples).
Proof.
  split.
  - intros w i (k & -> & Hk)%build_vocab_lookup.
    apply lookup_lt_Some in Hk.
    rewrite build_vocab_size, <-list_set_length. lia.
  - intros w1 w2 i (k1 & -> & Hk1)%build_vocab_lookup
      (k2 & Hk & Hk2)%build_vocab_lookup.
    apply Nat2Z.inj in Hk as <-. congruence.
Qed.

End VocabFacts.

(** C3. For every list of examples and every iteration order of the set,
    [build_vocab] returns a mapping whose keys are exactly the words of the
    examples, whose size is the number [k] of distinct words, whose values
    are exactly the integers [0 .. k - 1], and in which no two words share
    an index; for the empty list of examples it is the empty mapping. *)
Theorem build_vocab_bijection `{SetOrder} (examples : list SentimentExample) :
  let V := build_vocab examples in
  let k := size (list_to_set (all_words examples) : gset string) in
  size V = k ∧
  (∀ w, is_Some (V !! w) ↔ ∃ ex, ex ∈ examples ∧ w ∈ words ex) ∧
  (∀ i, (∃ w, V !! w = Some i) ↔ 0 ≤ i < Z.of_nat k) ∧
  (∀ w1 w2 i, V !! w1 = Some i → V !! w2 = Some i → w1 = w2) ∧
  build_vocab [] = ∅.
Proof.
  intros V k. subst V k.
  split; [apply build_vocab_size|].
  split.
  { intros w. rewrite <-all_words_elem, <-list_set_elem. split.
    - intros [i (k & _ & Hk)%build_vocab_lookup].
      by eapply list_elem_of_lookup_2.
    - intros (k & Hk)%list_elem_of_lookup_1. exists (Z.of_nat k).
      apply build_vocab_lookup. eauto. }
  split.
  { intros i. rewrite <-list_set_length. split.
    - intros [w (k & -> & Hk)%build_vocab_lookup].
      apply lookup_lt_Some in Hk. lia.
    - intros Hi.
      destruct (lookup_lt_is_Some_2 (list_set (all_words examples))
                  (Z.to_nat i)) as [w Hw]; [lia|].
      exists w. apply build_vocab_lookup. exists (Z.to_nat i).
      split; [lia|done]. }
  split; [apply build_vocab_Vocabulary|].
  apply map_eq. intros w. rewrite lookup_empty.
  destruct (build_vocab [] !! w) as [i|] eqn:Hi; [|done].
  apply build_vocab_lookup in Hi as (k & _ & Hk).
  apply list_elem_of_lookup_2 in Hk.
  apply (proj1 (list_set_elem _ _)) in Hk. by apply elem_of_nil in Hk.
Qed.

(** ** Facts about tensors *)

(** An integer of magnitude at most [2 ^ 24] is stored as it is. *)
Lemma float32_of_int_exact (z : Z) :
  Z.abs z ≤ exact_max → float32_of_int z = z.
Proof.
  unfold exact_max, float32_of_int. intros Hz.
  destruct (Z.leb_spec (Z.log2 (Z.abs z) - 23) 0) as [_|He]; [done|].
  assert (Hpos : 0 < Z.abs z).
  { destruct (Z.eq_dec (Z.abs z) 0) as [E|E]; [|lia].
    rewrite E in He. simpl in He. lia. }
  assert (Hlog : 24 ≤ Z.log2 (Z.abs z)) by lia.
  apply Z.log2_le_pow2 in Hlog; [|done].
  assert (Ha : Z.abs z = 2 ^ 24) by lia.
  destruct (Z.abs_eq_or_opp z) as [E|E]; rewrite E in Ha.
  - by subst z.
  - assert (z = - 2 ^ 24) as -> by lia. done.
Qed.

Lemma float32_of_int_0 : float32_of_int 0 = 0.
Proof. reflexivity. Qed.

Lemma float32_of_int_1 : float32_of_int 1 = 1.
Proof. reflexivity. Qed.

(** The first count that a float32 entry does not hold. *)
Lemma float32_of_int_inexact : float32_of_int (exact_max + 1) = exact_max.
Proof. reflexivity. Qed.

Lemma normalize_index_lt (n : nat) (idx : Z) (p : nat) :
  normalize_index n idx = Some p → (p < n)%nat.
Proof.
  unfold normalize_index.
  destruct (idx <? 0) eqn:Hneg;
    (destruct (_ && _) eqn:Hin; [|done]); intros [= <-];
    apply andb_true_iff in Hin as [?%Z.leb_le ?%Z.ltb_lt]; lia.
Qed.

Lemma normalize_index_in_range (n : nat) (idx : Z) :
  0 ≤ idx < Z.of_nat n → normalize_index n idx = Some (Z.to_nat idx).
Proof.
  intros Hr. unfold normalize_index.
  destruct (Z.ltb_spec idx 0); [lia|].
  destruct (Z.leb_spec 0 idx); [|lia].
  destruct (Z.ltb_spec idx (Z.of_nat n)); [done|lia].
Qed.

(** An index designates a position exactly when it lies in
    [-n .. n - 1]. *)
Lemma normalize_index_is_Some (n : nat) (idx : Z) :
  is_Some (normalize_index n idx) ↔ - Z.of_nat n ≤ idx < Z.of_nat n.
Proof.
  unfold normalize_index.
  destruct (Z.ltb_spec idx 0);
    [destruct (Z.leb_spec 0 (idx + Z.of_nat n))
    |destruct (Z.leb_spec 0 idx)];
    simpl;
    try (destruct (Z.ltb_spec (idx + Z.of_nat n) (Z.of_nat n)));
    try (destruct (Z.ltb_spec idx (Z.of_nat n)));
    split; intros Hs; try (by eexists); try lia;
    by destruct Hs.
Qed.

Lemma setitem_Ok_inv (t t' : tensor) (idx v : Z) :
  setitem t idx v = Ok t' →
  ∃ p, normalize_index (length t) idx = Some p ∧
       t' = <[p := float32_of_int v]> t.
Proof.
  unfold setitem. destruct (normalize_index (length t) idx) as [p|]; [|done].
  intros [= <-]. by exists p.
Qed.

Lemma setitem_Raise_inv (t : tensor) (idx v : Z) (e : exn) :
  setitem t idx v = Raise e →
  e = index_exn idx ∧ normalize_index (length t) idx = None.
Proof.
  unfold setitem. destruct (normalize_index (length t) idx) as [p|]; [done|].
  by intros [= <-].
Qed.

Lemma lookup_zeros (n p : nat) : (p < n)%nat → zeros n !! p = Some 0.
Proof. apply lookup_replicate_2. Qed.

Lemma length_zeros (n : nat) : length (zeros n) = n.
Proof. apply length_replicate. Qed.

(** ** Facts about the store loop *)

Section StoreLoop.
Context (vocab : gmap string Z) (val : string → Z).

Lemma store_loop_cons (w : string) (ws : list string) (bow : tensor) :
  store_loop vocab val (w :: ws) bow =
  match vocab !! w with
  | Some i => bow' ← setitem bow i (val w); store_loop vocab val ws bow'
  | None => store_loop vocab val ws bow
  end.
Proof. unfold store_loop. simpl. by destruct (vocab !! w). Qed.

Lemma writes_to_spec (n p : nat) (w : string) :
  writes_to vocab n p w = true ↔
  ∃ i, vocab !! w = Some i ∧ normalize_index n i = Some p.
Proof.
  unfold writes_to. rewrite bool_decide_eq_true.
  destruct (vocab !! w) as [i|]; simpl.
  - split; [by exists i|]. by intros (? & [= <-] & ?).
  - split; [done|]. by intros (? & ? & ?).
Qed.

(** After the loop each entry holds what the last word stored there put
    in it, and its initial value when no word of the list is stored
    there. *)
Lemma store_loop_lookup (ws : list string) (bow0 bow : tensor) :
  store_loop vocab val ws bow0 = Ok bow →
  length bow = length bow0 ∧
  ∀ p, bow !! p =
       match last (filter (λ w, writes_to vocab (length bow0) p w = true) ws) with
       | Some w => Some (float32_of_int (val w))
       | None => bow0 !! p
       end.
Proof.
  revert bow0. induction ws as [|w ws IH]; intros bow0.
  - intros [= <-]. done.
  - rewrite store_loop_cons.
    destruct (vocab !! w) as [i|] eqn:Hw.
    + destruct (setitem bow0 i (val w)) as [bow1|e] eqn:Hset; [|done].
      simpl. intros Hloop.
      apply setitem_Ok_inv in Hset as (q & Hq & ->).
      destruct (IH _ Hloop) as [Hlen Hlook].
      rewrite length_insert in Hlen, Hlook. split; [done|].
      intros p. rewrite (Hlook p), filter_cons.
      destruct (decide (writes_to vocab (length bow0) p w = true)) as [Hp|Hp].
      * rewrite last_cons.
        destruct (last (filter _ ws)); [done|].
        apply writes_to_spec in Hp as (i' & Hi' & Hn).
        assert (i' = i) as -> by congruence.
        assert (q = p) as -> by congruence.
        apply list_lookup_insert_eq. by eapply normalize_index_lt.
      * destruct (last (filter _ ws)); [done|].
        apply list_lookup_insert_ne. intros ->. apply Hp.
        apply writes_to_spec. by exists i.
    + intros Hloop. destruct (IH _ Hloop) as [Hlen Hlook].
      split; [done|]. intros p. rewrite (Hlook p), filter_cons.
      destruct (decide (writes_to vocab (length bow0) p w = true)) as [Hp|Hp];
        [|done].
      apply writes_to_spec in Hp as (i' & Hi' & _). congruence.
Qed.

(** The loop goes through when every index it meets designates a
    position. *)
Lemma store_loop_Ok (ws : list string) (bow0 : tensor) :
  (∀ w i, w ∈ ws → vocab !! w = Some i →
          is_Some (normalize_index (length bow0) i)) →
  is_Ok (store_loop vocab val ws bow0).
Proof.
  revert bow0. induction ws as [|w ws IH]; intros bow0 Hall.
  - apply is_Ok_Ok.
  - rewrite store_loop_cons.
    destruct (vocab !! w) as [i|] eqn:Hw.
    + destruct (Hall w i) as [p Hp]; [apply list_elem_of_here|done|].
      unfold setitem. rewrite Hp. simpl. apply IH.
      intros w' i' Hin Hw'. rewrite length_insert.
      apply (Hall w' i'); [by apply list_elem_of_further|done].
    + apply IH. intros w' i' Hin Hw'.
      apply (Hall w' i'); [by apply list_elem_of_further|done].
Qed.

(** The only exception of the loop is that of a word whose index
    designates no position. *)
Lemma store_loop_Raise (ws : list string) (bow0 : tensor) (e : exn) :
  store_loop vocab val ws bow0 = Raise e →
  ∃ w i, e = index_exn i ∧ w ∈ ws ∧ vocab !! w = Some i ∧
         normalize_index (length bow0) i = None.
Proof.
  revert bow0. induction ws as [|w ws IH]; intros bow0; [done|].
  rewrite store_loop_cons.
  destruct (vocab !! w) as [i|] eqn:Hw.
  - destruct (setitem bow0 i (val w)) as [bow1|e'] eqn:Hset; simpl.
    + intros Hloop. apply setitem_Ok_inv in Hset as (q & Hq & ->).
      destruct (IH _ Hloop) as (w' & i' & -> & Hin & Hw' & Hn).
      rewrite length_insert in Hn.
      exists w', i'. split; [done|].
      split; [by apply list_elem_of_further|done].
    + intros [= <-]. apply setitem_Raise_inv in Hset as [-> Hn].
      exists w, i. split; [done|]. split; [apply list_elem_of_here|done].
  - intros Hloop. destruct (IH _ Hloop) as (w' & i' & -> & Hin & Hw' & Hn).
    exists w', i'. split; [done|].
    split; [by apply list_elem_of_further|done].
Qed.

(** Words that the vocabulary does not know leave the tensor as it is. *)
Lemma store_loop_unknown (ws : list string) (bow0 : tensor) :
  (∀ w, w ∈ ws → vocab !! w = None) →
  store_loop vocab val ws bow0 = Ok bow0.
Proof.
  induction ws as [|w ws IH]; intros Hall; [done|].
  rewrite store_loop_cons, (Hall w) by apply list_elem_of_here.
  apply IH. intros w' Hin. apply Hall. by apply list_elem_of_further.
Qed.

End StoreLoop.

(** ** Facts about [Counter] *)

Lemma occurrences_nil (w : string) : occurrences w [] = 0.
Proof. reflexivity. Qed.

Lemma occurrences_snoc (k w : string) (text : list string) :
  occurrences k (text ++ [w]) =
  occurrences k text + (if decide (w = k) then 1 else 0).
Proof.
  unfold occurrences. rewrite filter_app, length_app, filter_cons, filter_nil.
  destruct (decide (w = k)); simpl; lia.
Qed.

Lemma occurrences_not_elem (w : string) (text : list string) :
  w ∉ text → occurrences w text = 0.
Proof.
  intros Hw. unfold occurrences.
  destruct (filter (λ x, x = w) text) as [|x l] eqn:E; [done|].
  assert (Hx : x ∈ filter (λ x, x = w) text) by (rewrite E; apply list_elem_of_here).
  apply list_elem_of_filter in Hx as [-> ?]. done.
Qed.

Lemma occurrences_elem (w : string) (text : list string) :
  w ∈ text → 0 < occurrences w text.
Proof.
  intros Hw. unfold occurrences.
  assert (Hf : w ∈ filter (λ x, x = w) text) by by apply list_elem_of_filter.
  destruct (filter (λ x, x = w) text); [by apply elem_of_nil in Hf|].
  simpl. lia.
Qed.

Lemma occurrences_replicate (w : string) (n : nat) :
  occurrences w (replicate n w) = Z.of_nat n.
Proof.
  unfold occurrences. f_equal.
  induction n as [|n IH]; simpl; [done|].
  rewrite filter_cons_True by done. simpl. by rewrite IH.
Qed.


Lemma first_occurrences_snoc (text : list string) (w : string) :
  first_occurrences (text ++ [w]) =
  if decide (w ∈ first_occurrences text) then first_occurrences text
  else first_occurrences text ++ [w].
Proof. unfold first_occurrences. by rewrite foldl_app. Qed.

Lemma first_occurrences_elem (text : list string) (w : string) :
  w ∈ first_occurrences text ↔ w ∈ text.
Proof.
  induction text as [|x text IH] using rev_ind; [done|].
  rewrite first_occurrences_snoc, elem_of_app, list_elem_of_singleton.
  destruct (decide (x ∈ first_occurrences text)) as [Hx|Hx].
  - rewrite IH. split; [by left|]. intros [?| ->]; [done|]. by apply IH.
  - by rewrite elem_of_app, list_elem_of_singleton, IH.
Qed.

Lemma first_occurrences_NoDup (text : list string) :
  NoDup (first_occurrences text).
Proof.
  induction text as [|x text IH] using rev_ind; [constructor|].
  rewrite first_occurrences_snoc.
  destruct (decide (x ∈ first_occurrences text)) as [Hx|Hx]; [done|].
  apply NoDup_app. split; [done|]. split; [|apply NoDup_singleton].
  by intros y Hy ->%list_elem_of_singleton.
Qed.

(** The words that a text adds to the ones met before it come after
    them, in the order of their first occurrence. *)
Lemma first_occurrences_app (pre post : list string) :
  first_occurrences (pre ++ post) =
  first_occurrences pre ++ filter (λ w, w ∉ pre) (first_occurrences post).
Proof.
  induction post as [|w post IH] using rev_ind.
  - by rewrite !app_nil_r.
  - rewrite app_assoc, !first_occurrences_snoc, IH.
    assert (Hmem : w ∈ first_occurrences pre ++
                     filter (λ w, w ∉ pre) (first_occurrences post) ↔
                   w ∈ pre ∨ w ∈ first_occurrences post).
    { rewrite elem_of_app, list_elem_of_filter, first_occurrences_elem.
      destruct (decide (w ∈ pre)); tauto. }
    destruct (decide (w ∈ first_occurrences post)) as [Hpost|Hpost].
    + rewrite decide_True; [done|]. apply Hmem. by right.
    + rewrite filter_app, filter_cons, filter_nil.
      destruct (decide (w ∈ pre)) as [Hpre|Hpre].
      * rewrite decide_True by (apply Hmem; by left).
        rewrite decide_False by (by intros Hn).
        by rewrite app_nil_r.
      * rewrite decide_False by (rewrite Hmem; tauto).
        rewrite decide_True by done. by rewrite app_assoc.
Qed.

Lemma counter_incr_known (ks : list string) (w : string) (f g : string → Z) :
  NoDup ks → w ∈ ks → g w = f w + 1 → (∀ k, k ≠ w → g k = f k) →
  counter_incr w ((λ k, (k, f k)) <$> ks) = (λ k, (k, g k)) <$> ks.
Proof.
  intros Hnd Hin Hw Hother. induction Hnd as [|k ks Hk Hnd IH]; simpl.
  - by apply elem_of_nil in Hin.
  - destruct (decide (k = w)) as [->|Hne].
    + rewrite Hw. f_equal. apply Forall_fmap_ext_1, Forall_forall.
      intros k Hkin. f_equal. symmetry. apply Hother. by intros ->.
    + rewrite (Hother k Hne). f_equal. apply IH.
      by apply elem_of_cons in Hin as [->|Hin].
Qed.

Lemma counter_incr_new (ks : list string) (w : string) (f g : string → Z) :
  w ∉ ks → g w = 1 → (∀ k, k ≠ w → g k = f k) →
  counter_incr w ((λ k, (k, f k)) <$> ks) = (λ k, (k, g k)) <$> (ks ++ [w]).
Proof.
  intros Hin Hw Hother. induction ks as [|k ks IH]; simpl.
  - by rewrite Hw.
  - apply not_elem_of_cons in Hin as [Hne Hin].
    rewrite decide_False by done. rewrite (Hother k) by done.
    f_equal. by apply IH.
Qed.

(** A [Counter] holds the distinct words of the text in the order of their
    first occurrence, each with the number of its occurrences. *)
Lemma Counter_items (text : list string) :
  Counter text =
  (λ w, (w, occurrences w text)) <$> first_occurrences text.
Proof.
  induction text as [|w text IH] using rev_ind; [done|].
  unfold Counter in *. rewrite foldl_app. simpl. rewrite IH.
  rewrite first_occurrences_snoc.
  destruct (decide (w ∈ first_occurrences text)) as [Hw|Hw].
  - apply counter_incr_known; [apply first_occurrences_NoDup|done|..].
    + rewrite occurrences_snoc, decide_True by done. done.
    + intros k Hk. rewrite occurrences_snoc, decide_False by done. lia.
  - apply counter_incr_new; [done|..].
    + rewrite occurrences_snoc, decide_True by done.
      rewrite occurrences_not_elem; [done|].
      by rewrite <-first_occurrences_elem.
    + intros k Hk. rewrite occurrences_snoc, decide_False by done. lia.
Qed.

(** ** [bag_of_words] as a store loop *)

Lemma for_in_fmap {A B S} (body : S → B → result S) (f : A → B)
    (l : list A) (s : S) :
  for_in body (f <$> l) s = for_in (λ s x, body s (f x)) l s.
Proof.
  revert s. induction l as [|x l IH]; intros s; simpl; [done|].
  destruct (body s (f x)); simpl; [apply IH|done].
Qed.

Lemma bag_of_words_binary (text : list string) (vocab : gmap string Z) :
  bag_of_words text vocab true =
  store_loop vocab (λ _, 1) text (zeros (size vocab)).
Proof. reflexivity. Qed.

Lemma bag_of_words_count (text : list string) (vocab : gmap string Z) :
  bag_of_words text vocab false =
  store_loop vocab (λ w, occurrences w text) (first_occurrences text)
    (zeros (size vocab)).
Proof.
  unfold bag_of_words, store_loop. rewrite Counter_items.
  by rewrite for_in_fmap.
Qed.

(** In either mode the call is a store loop over words of the text. *)
Lemma bag_of_words_loop (text : list string) (vocab : gmap string Z)
    (binary : bool) :
  ∃ val ws, (∀ w, w ∈ ws ↔ w ∈ text) ∧
    bag_of_words text vocab binary =
      store_loop vocab val ws (zeros (size vocab)).
Proof.
  destruct binary.
  - exists (λ _, 1), text. split; [done|]. apply bag_of_words_binary.
  - exists (λ w, occurrences w text), (first_occurrences text).
    split; [apply first_occurrences_elem|]. apply bag_of_words_count.
Qed.

(** ** Facts about vocabularies *)

Lemma last_filter_Some {A} (P : A → Prop) `{∀ x, Decision (P x)}
    (l : list A) (x : A) :
  last (filter P l) = Some x → P x ∧ x ∈ l.
Proof. intros Hl%last_Some_elem_of. by apply list_elem_of_filter in Hl. Qed.

Lemma last_filter_None {A} (P : A → Prop) `{∀ x, Decision (P x)}
    (l : list A) (x : A) :
  last (filter P l) = None → x ∈ l → ¬ P x.
Proof.
  intros Hl%last_None Hx HP.
  by eapply filter_nil_not_elem_of.
Qed.

Section VocabularyFacts.
Context (V : gmap string Z) (HV : Vocabulary V).

Lemma Vocabulary_position (w : string) (i : Z) :
  V !! w = Some i → normalize_index (size V) i = Some (Z.to_nat i).
Proof. intros Hw. apply normalize_index_in_range. by eapply vocab_range. Qed.

(** In a vocabulary the only word stored at the position of a word is
    that word. *)
Lemma Vocabulary_writes_to (w x : string) (i : Z) :
  V !! w = Some i →
  writes_to V (size V) (Z.to_nat i) x = true ↔ x = w.
Proof.
  intros Hw. rewrite writes_to_spec. split.
  - intros (j & Hx & Hj).
    rewrite (Vocabulary_position _ _ Hx) in Hj. injection Hj as Hj.
    pose proof (vocab_range V HV _ _ Hx). pose proof (vocab_range V HV _ _ Hw).
    assert (j = i) as -> by lia. exact (vocab_inj V HV x w i Hx Hw).
  - intros ->. exists i. split; [done|]. exact (Vocabulary_position w i Hw).
Qed.

(** A loop over a vocabulary goes through, and leaves at the position of
    each word the value of that word if the loop met it, and zero if not. *)
Lemma Vocabulary_store_loop (val : string → Z) (ws : list string) :
  ∃ bow, store_loop V val ws (zeros (size V)) = Ok bow ∧
    length bow = size V ∧
    ∀ w i, V !! w = Some i →
      bow !! Z.to_nat i =
        Some (if decide (w ∈ ws) then float32_of_int (val w) else 0).
Proof.
  destruct (store_loop_Ok V val ws (zeros (size V))) as [bow Hbow].
  { intros w i _ Hw. rewrite length_zeros.
    rewrite (Vocabulary_position w i Hw). by eexists. }
  exists bow. split; [done|].
  destruct (store_loop_lookup _ _ _ _ _ Hbow) as [Hlen Hlook].
  rewrite length_zeros in Hlen, Hlook. split; [done|].
  intros w i Hw. rewrite (Hlook (Z.to_nat i)).
  destruct (last _) as [x|] eqn:Hlast.
  - apply last_filter_Some in Hlast as [Hx Hin].
    apply (Vocabulary_writes_to _ _ _ Hw) in Hx as ->.
    by rewrite decide_True.
  - rewrite decide_False.
    + apply lookup_zeros.
      pose proof (vocab_range V HV _ _ Hw). lia.
    + intros Hin. eapply last_filter_None in Hlast; [|exact Hin].
      apply Hlast. by apply (Vocabulary_writes_to _ _ _ Hw).
Qed.

End VocabularyFacts.


Lemma occurrences_filter (P : string → Prop) `{∀ x, Decision (P x)}
    (w : string) (text : list string) :
  P w → occurrences w (filter P text) = occurrences w text.
Proof.
  intros Hw. unfold occurrences. f_equal. rewrite list_filter_filter.
  f_equal. apply list_filter_iff. intros x. split; [by intros [? _]|].
  by intros ->.
Qed.

(** Every position of a vocabulary is the index of a word: as many
    distinct indices as there are positions leave none free. *)
Lemma Vocabulary_surj (V : gmap string Z) (p : nat) :
  Vocabulary V → (p < size V)%nat → ∃ w, V !! w = Some (Z.of_nat p).
Proof.
  intros HV Hp.
  set (l := (map_to_list V).*2).
  assert (Hlen : length l = size V).
  { unfold l. by rewrite length_fmap, length_map_to_list. }
  assert (Hnd : NoDup l).
  { unfold l. apply NoDup_fmap_2_strong; [|apply NoDup_map_to_list].
    intros [w1 i1] [w2 i2] H1%elem_of_map_to_list H2%elem_of_map_to_list.
    simpl. intros <-. f_equal. exact (vocab_inj V HV w1 w2 i1 H1 H2). }
  assert (Hsub : ∀ x, x ∈ l → x ∈ seqZ 0 (Z.of_nat (size V))).
  { intros x ([w i] & -> & Hwi%elem_of_map_to_list)%list_elem_of_fmap.
    simpl. apply elem_of_seqZ. pose proof (vocab_range V HV w i Hwi). lia. }
  assert (Hperm : l ≡ₚ seqZ 0 (Z.of_nat (size V))).
  { apply submseteq_length_Permutation; [by apply NoDup_submseteq|].
    rewrite length_seqZ. lia. }
  assert (Hin : Z.of_nat p ∈ l).
  { rewrite Hperm. apply elem_of_seqZ. lia. }
  apply list_elem_of_fmap in Hin as ([w i] & Hi & Hwi%elem_of_map_to_list).
  simpl in Hi. subst i. by exists w.
Qed.

(** Two tensors as long as a vocabulary that agree at the position of
    each of its words are the same. *)
Lemma Vocabulary_tensor_eq (V : gmap string Z) (t1 t2 : tensor) :
  Vocabulary V → length t1 = size V → length t2 = size V →
  (∀ w i, V !! w = Some i → t1 !! Z.to_nat i = t2 !! Z.to_nat i) →
  t1 = t2.
Proof.
  intros HV H1 H2 Hagree.
  apply (list_eq_same_length _ _ (size V)); [done..|].
  intros p x y Hp Hx Hy.
  destruct (Vocabulary_surj V p HV Hp) as [w Hw].
  specialize (Hagree w _ Hw). rewrite Nat2Z.id in Hagree. congruence.
Qed.

(** ** The entry of a shared index *)


(** ** Texts that repeat one word *)

Lemma first_occurrences_replicate (w : string) (m : nat) :
  first_occurrences (replicate (S m) w) = [w].
Proof.
  induction m as [|m IH]; [done|].
  rewrite replicate_S_end, first_occurrences_snoc, IH.
  rewrite decide_True; [done|]. apply list_elem_of_here.
Qed.

Lemma bag_of_words_many_a (m : nat) :
  bag_of_words (replicate (S m) "a") vocab_a false =
  Ok [float32_of_int (Z.of_nat (S m))].
Proof.
  rewrite bag_of_words_count, first_occurrences_replicate.
  rewrite store_loop_cons. change (vocab_a !! "a") with (Some 0).
  cbv beta. rewrite (occurrences_replicate "a" (S m)). reflexivity.
Qed.



Lemma to_nat_exact_max_succ :
  Z.to_nat (exact_max + 1) = S (Z.to_nat exact_max).
Proof. rewrite <-Z2Nat.inj_succ; [done|]. unfold exact_max. lia. Qed.

Lemma of_nat_exact_max_succ :
  Z.of_nat (S (Z.to_nat exact_max)) = exact_max + 1.
Proof. rewrite Nat2Z.inj_succ, Z2Nat.id; unfold exact_max; lia. Qed.

Lemma store_loop_Ok_inv (vocab : gmap string Z) (val : string → Z)
    (ws : list string) (bow0 bow : tensor) (w : string) (i : Z) :
  store_loop vocab val ws bow0 = Ok bow → w ∈ ws → vocab !! w = Some i →
  is_Some (normalize_index (length bow0) i).
Proof.
  revert bow0. induction ws as [|x ws IH]; intros bow0 Hloop Hin Hw.
  - by apply elem_of_nil in Hin.
  - rewrite store_loop_cons in Hloop.
    destruct (vocab !! x) as [j|] eqn:Hx.
    + destruct (setitem bow0 j (val x)) as [bow1|e] eqn:Hset; [|done].
      simpl in Hloop. apply setitem_Ok_inv in Hset as (q & Hq & ->).
      apply elem_of_cons in Hin as [->|Hin].
      * assert (i = j) as -> by congruence. by exists q.
      * specialize (IH _ Hloop Hin Hw). by rewrite length_insert in IH.
    + apply elem_of_cons in Hin as [->|Hin]; [congruence|by eapply IH].
Qed.

Lemma Vocabulary_vocab_a : Vocabulary vocab_a.
Proof.
  unfold vocab_a. split.
  - intros w i [<- <-]%lookup_singleton_Some. done.
  - by intros w1 w2 i [<- _]%lookup_singleton_Some [<- _]%lookup_singleton_Some.
Qed.

(** ** The vectorizer: claims *)

(** C8. For the empty vocabulary and every token list, whatever words it
    holds, [bag_of_words] returns the vector of length 0, in binary mode
    and in count mode alike. *)
Theorem bag_of_words_empty_vocab (text : list string) (binary : bool) :
  bag_of_words text ∅ binary = Ok [].
Proof.
  destruct (bag_of_words_loop text ∅ binary) as (val & ws & _ & ->).
  apply store_loop_unknown. intros w _. apply lookup_empty.
Qed.

(** C2. For every vocabulary and every token list, binary mode returns a
    vector as long as the vocabulary whose entries are all 0 or 1; every
    position is the index of a word, and the entry there is 1 exactly when
    that word occurs in the tokens. Only the set of words of the tokens
    counts: a list with the same words, repeated or not, gives the same
    vector. *)
Theorem bag_of_words_binary_presence (V : gmap string Z) (text : list string) :
  Vocabulary V →
  ∃ bow, bag_of_words text V true = Ok bow ∧
    length bow = size V ∧
    Forall (λ x, x = 0 ∨ x = 1) bow ∧
    (∀ p, (p < size V)%nat →
       ∃ w, V !! w = Some (Z.of_nat p) ∧ (bow !! p = Some 1 ↔ w ∈ text)) ∧
    (∀ w i, V !! w = Some i → (bow !! Z.to_nat i = Some 1 ↔ w ∈ text)) ∧
    (∀ text', (∀ w, w ∈ text' ↔ w ∈ text) →
       bag_of_words text' V true = Ok bow).
Proof.
  intros HV.
  destruct (Vocabulary_store_loop V HV (λ _, 1) text)
    as (bow & Hbow & Hlen & Hent).
  assert (Hiff : ∀ w i, V !! w = Some i →
                        (bow !! Z.to_nat i = Some 1 ↔ w ∈ text)).
  { intros w i Hw. rewrite (Hent w i Hw).
    destruct (decide (w ∈ text)); split; done. }
  exists bow. rewrite bag_of_words_binary.
  split; [done|]. split; [done|]. split.
  { apply Forall_lookup. intros p x Hx.
    assert (Hp : (p < size V)%nat) by (rewrite <-Hlen; by eapply lookup_lt_Some).
    destruct (Vocabulary_surj V p HV Hp) as [w Hw].
    pose proof (Hent w _ Hw) as He. rewrite Nat2Z.id, Hx in He.
    injection He as ->. destruct (decide (w ∈ text)); [by right|by left]. }
  split.
  { intros p Hp. destruct (Vocabulary_surj V p HV Hp) as [w Hw].
    exists w. split; [done|]. rewrite <-(Hiff w _ Hw). by rewrite Nat2Z.id. }
  split; [done|].
  intros text' Hsame. rewrite bag_of_words_binary.
  destruct (Vocabulary_store_loop V HV (λ _, 1) text')
    as (bow' & Hbow' & Hlen' & Hent').
  rewrite Hbow'. f_equal.
  apply (Vocabulary_tensor_eq V); [done..|].
  intros w i Hw. rewrite (Hent w i Hw), (Hent' w i Hw).
  destruct (decide (w ∈ text')) as [Hin|Hin];
    destruct (decide (w ∈ text)) as [Hin'|Hin']; try done;
    exfalso; apply Hsame in Hin || apply Hsame in Hin'; done.
Qed.

Lemma bag_of_words_binary_presence_witness :
  ∃ bow, bag_of_words ["a"; "a"; "z"] vocab_a true = Ok bow ∧
    length bow = size vocab_a.
Proof.
  destruct (bag_of_words_binary_presence vocab_a ["a"; "a"; "z"]
              Vocabulary_vocab_a) as (bow & Hbow & Hlen & _).
  exists bow. split; [exact Hbow | exact Hlen].
Defined.

(** What count mode leaves in the vector of a vocabulary. *)
Lemma count_mode_entries (V : gmap string Z) (text : list string) :
  Vocabulary V →
  ∃ bow, bag_of_words text V false = Ok bow ∧
    length bow = size V ∧
    ∀ w i, V !! w = Some i →
      bow !! Z.to_nat i = Some (float32_of_int (occurrences w text)).
Proof.
  intros HV. rewrite bag_of_words_count.
  destruct (Vocabulary_store_loop V HV (λ w, occurrences w text)
              (first_occurrences text)) as (bow & Hbow & Hlen & Hent).
  exists bow. split; [done|]. split; [done|].
  intros w i Hw. rewrite (Hent w i Hw).
  destruct (decide (w ∈ first_occurrences text)) as [Hin|Hin]; [done|].
  rewrite occurrences_not_elem; [done|]. by rewrite <-first_occurrences_elem.
Qed.

(** C1, as the code has it. For every vocabulary and every token list,
    count mode returns a vector as long as the vocabulary; every position
    is the index of a word, and the entry there is the number of
    occurrences of that word in the tokens as a float32 holds it: the
    number itself when it is at most [2 ^ 24], and so 0 when the word
    does not occur. Tokens that the vocabulary does not know contribute
    nothing: the tokens without them give the same vector. *)
Theorem bag_of_words_counts (V : gmap string Z) (text : list string) :
  Vocabulary V →
  ∃ bow, bag_of_words text V false = Ok bow ∧
    length bow = size V ∧
    (∀ p, (p < size V)%nat →
       ∃ w, V !! w = Some (Z.of_nat p) ∧
            bow !! p = Some (float32_of_int (occurrences w text))) ∧
    (∀ w i, V !! w = Some i → occurrences w text ≤ exact_max →
       bow !! Z.to_nat i = Some (occurrences w text)) ∧
    (∀ w i, V !! w = Some i → w ∉ text → bow !! Z.to_nat i = Some 0) ∧
    bag_of_words (filter (λ w, is_Some (V !! w)) text) V false = Ok bow.
Proof.
  intros HV.
  destruct (count_mode_entries V text HV) as (bow & Hbow & Hlen & Hent).
  exists bow. split; [done|]. split; [done|]. split.
  { intros p Hp. destruct (Vocabulary_surj V p HV Hp) as [w Hw].
    exists w. split; [done|]. rewrite <-(Hent w _ Hw). by rewrite Nat2Z.id. }
  split.
  { intros w i Hw Hle. rewrite (Hent w i Hw), float32_of_int_exact; [done|].
    pose proof (Zle_0_nat (length (filter (λ x, x = w) text))).
    unfold occurrences in *. lia. }
  split.
  { intros w i Hw Hin. rewrite (Hent w i Hw).
    by rewrite occurrences_not_elem. }
  destruct (count_mode_entries V (filter (λ w, is_Some (V !! w)) text) HV)
    as (bow' & Hbow' & Hlen' & Hent').
  rewrite Hbow'. f_equal.
  apply (Vocabulary_tensor_eq V); [done..|].
  intros w i Hw. rewrite (Hent w i Hw), (Hent' w i Hw).
  by rewrite occurrences_filter.
Qed.

Lemma bag_of_words_counts_witness :
  ∃ bow, bag_of_words ["a"; "a"; "z"] vocab_a false = Ok bow ∧
    length bow = size vocab_a.
Proof.
  destruct (bag_of_words_counts vocab_a ["a"; "a"; "z"] Vocabulary_vocab_a)
    as (bow & Hbow & Hlen & _).
  exists bow. split; [exact Hbow | exact Hlen].
Defined.

(** C1, as stated, fails: with the word repeated [2 ^ 24 + 1] times the
    entry is [2 ^ 24], not the number of occurrences. *)
Lemma count_beyond_float32 :
  Vocabulary vocab_a ∧
  bag_of_words many_a vocab_a false = Ok [exact_max] ∧
  occurrences "a" many_a = exact_max + 1 ∧
  ¬ counts_exactly many_a vocab_a.
Proof.
  assert (Hbow : bag_of_words many_a vocab_a false = Ok [exact_max]).
  { unfold many_a. rewrite to_nat_exact_max_succ, bag_of_words_many_a.
    by rewrite of_nat_exact_max_succ, float32_of_int_inexact. }
  assert (Hocc : occurrences "a" many_a = exact_max + 1).
  { unfold many_a. rewrite to_nat_exact_max_succ, occurrences_replicate.
    apply of_nat_exact_max_succ. }
  split; [apply Vocabulary_vocab_a|]. split; [done|]. split; [done|].
  intros (bow & Hb & _ & Hall).
  rewrite Hbow in Hb. injection Hb as <-.
  specialize (Hall "a" 0 eq_refl). rewrite Hocc in Hall.
  injection Hall as Hall. lia.
Qed.




(** C5, as the code has it. [build_vocab] returns a vocabulary for every
    list of examples, and on it [bag_of_words] never raises. On an
    arbitrary mapping [bag_of_words] goes through exactly when the index
    of every token that the mapping knows lies in [-n .. n - 1], for [n]
    the size of the mapping, and raises otherwise. Unknown words raise
    nothing: a text of unknown words gives the zero vector. *)
Theorem vectorizer_total_on_positions `{SetOrder} :
  (∀ examples, Vocabulary (build_vocab examples)) ∧
  (∀ examples text binary,
     is_Ok (bag_of_words text (build_vocab examples) binary)) ∧
  (∀ text V binary,
     is_Ok (bag_of_words text V binary) ↔
     ∀ w i, w ∈ text → V !! w = Some i →
            - Z.of_nat (size V) ≤ i < Z.of_nat (size V)) ∧
  (∀ text V binary,
     (∀ w, w ∈ text → V !! w = None) →
     bag_of_words text V binary = Ok (zeros (size V))).
Proof.
  assert (Hiff : ∀ text V binary,
     is_Ok (bag_of_words text V binary) ↔
     ∀ w i, w ∈ text → V !! w = Some i →
            - Z.of_nat (size V) ≤ i < Z.of_nat (size V)).
  { intros text V binary.
    destruct (bag_of_words_loop text V binary) as (val & ws & Hws & ->).
    split.
    - intros [bow Hbow] w i Hin%Hws Hw.
      apply normalize_index_is_Some.
      rewrite <-(length_zeros (size V)). by eapply store_loop_Ok_inv.
    - intros Hall. apply store_loop_Ok. intros w i Hin%Hws Hw.
      rewrite length_zeros. apply normalize_index_is_Some. by eapply Hall. }
  split; [apply build_vocab_Vocabulary|]. split.
  { intros examples text binary. apply Hiff. intros w i _ Hw.
    pose proof (vocab_range _ (build_vocab_Vocabulary examples) w i Hw). lia. }
  split; [done|].
  intros text V binary Hall.
  destruct (bag_of_words_loop text V binary) as (val & ws & Hws & ->).
  apply store_loop_unknown. intros w Hin%Hws. by apply Hall.
Qed.

(** C5, as stated, fails: a mapping that sends a token to an index that
    is no position makes [bag_of_words] raise, in either mode. *)
Lemma out_of_range_index_raises :
  bag_of_words ["a"] vocab_far false = Raise IndexError ∧
  bag_of_words ["a"] vocab_far true = Raise IndexError ∧
  ¬ is_Ok (bag_of_words ["a"] vocab_far false).
Proof.
  split; [reflexivity|]. split; [reflexivity|]. intros [bow Hbow].
  discriminate Hbow.
Qed.

(** ** The example scenario of the spec *)

(** The label field of a line ends with the line terminator, which
    [int] skips. *)
Example int_skips_newline : Py.int (String "1" (String Py.LF EmptyString)) = Ok 1.
Proof. reflexivity. Qed.

Example int_accepts_sign_and_underscore : Py.int " -1_000 " = Ok (-1000).
Proof. reflexivity. Qed.

Example int_rejects_words : Py.int "zero" = Raise ValueError.
Proof. reflexivity. Qed.

Example scenario_read :
  read_sentiment_examples split_whitespace
    (one_file "corpus.tsv" corpus) "corpus.tsv" =
  Ok [mkSentimentExample ["good"; "movie"] 1;
      mkSentimentExample ["bad"; "movie"] 0].
Proof. vm_compute. reflexivity. Qed.

Example scenario_missing_file :
  read_sentiment_examples split_whitespace
    (one_file "corpus.tsv" corpus) "other.tsv" = Raise OSError.
Proof. reflexivity. Qed.

Example scenario_vocab :
  build_vocab [mkSentimentExample ["good"; "movie"] 1;
               mkSentimentExample ["bad"; "movie"] 0] =
  {[ "good" := 0; "bad" := 1; "movie" := 2 ]}.
Proof. vm_compute. reflexivity. Qed.

Example scenario_vector :
  bag_of_words ["good"; "movie"]
    {[ "good" := 0; "bad" := 1; "movie" := 2 ]} true = Ok [1; 0; 1].
Proof. vm_compute. reflexivity. Qed.

Example scenario_counts :
  bag_of_words ["good"; "good"; "movie"; "unseen"]
    {[ "good" := 0; "bad" := 1; "movie" := 2 ]} false = Ok [2; 0; 1].
Proof. vm_compute. reflexivity. Qed.

(** A negative index counts from the end of the vector. *)
Example negative_index_wraps :
  bag_of_words ["a"] {[ "a" := -1; "b" := 0 ]} true = Ok [0; 1].
Proof. vm_compute. reflexivity. Qed.

(** * Further properties *)

(** ** More facts about tensors and the store loop *)

(** A positive count is stored as a positive value. *)
Lemma float32_of_int_pos (z : Z) : 1 ≤ z → 1 ≤ float32_of_int z.
Proof.
  intros Hz. unfold float32_of_int.
  destruct (Z.leb_spec (Z.log2 (Z.abs z) - 23) 0) as [_|He]; [done|].
  rewrite Z.abs_eq, Z.sgn_pos in * by lia.
  set (e := Z.log2 z - 23) in *.
  set (q := Z.shiftr z e).
  assert (Hq : 1 ≤ q).
  { unfold q. rewrite Z.shiftr_div_pow2 by lia.
    apply Z.div_le_lower_bound; [apply Z.pow_pos_nonneg; lia|].
    rewrite Z.mul_1_r. transitivity (2 ^ Z.log2 z).
    - apply Z.pow_le_mono_r; unfold e; lia.
    - apply Z.log2_spec. lia. }
  assert (Hq' : 1 ≤ (if (Z.shiftl 1 (e - 1) <? Z.land z (Z.ones e))
                       || ((Z.land z (Z.ones e) =? Z.shiftl 1 (e - 1))
                           && Z.odd q)
                     then q + 1 else q)).
  { destruct (_ || _); lia. }
  revert Hq'. generalize (if (Z.shiftl 1 (e - 1) <? Z.land z (Z.ones e))
                       || ((Z.land z (Z.ones e) =? Z.shiftl 1 (e - 1))
                           && Z.odd q)
                     then q + 1 else q).
  intros q' Hq'. rewrite Z.shiftl_mul_pow2 by lia.
  assert (0 < 2 ^ e) by (apply Z.pow_pos_nonneg; lia). nia.
Qed.

Lemma occurrences_nonneg (w : string) (text : list string) :
  0 ≤ occurrences w text.
Proof. unfold occurrences. lia. Qed.

Lemma occurrences_le_length (w : string) (text : list string) :
  occurrences w text ≤ Z.of_nat (length text).
Proof.
  unfold occurrences. pose proof (length_filter (λ x, x = w) text). lia.
Qed.

Section StoreLoopMore.
Context (vocab : gmap string Z).

(** Only the values of the words that the vocabulary knows matter. *)
Lemma store_loop_ext (val val' : string → Z) (ws : list string)
    (bow0 : tensor) :
  (∀ w, w ∈ ws → is_Some (vocab !! w) → val w = val' w) →
  store_loop vocab val ws bow0 = store_loop vocab val' ws bow0.
Proof.
  revert bow0. induction ws as [|w ws IH]; intros bow0 Hv; [done|].
  rewrite !store_loop_cons.
  assert (Hrest : ∀ b, store_loop vocab val ws b = store_loop vocab val' ws b).
  { intros b. apply IH. intros x Hx. apply Hv. by apply list_elem_of_further. }
  destruct (vocab !! w) as [i|] eqn:Hw; [|apply Hrest].
  rewrite (Hv w) by (apply list_elem_of_here || by eexists).
  destruct (setitem bow0 i (val' w)); simpl; [apply Hrest|done].
Qed.

(** The words that the vocabulary does not know can be left out. *)
Lemma store_loop_known (val : string → Z) (ws : list string) (bow0 : tensor) :
  store_loop vocab val (known vocab ws) bow0 = store_loop vocab val ws bow0.
Proof.
  revert bow0. unfold known. induction ws as [|w ws IH]; intros bow0; [done|].
  rewrite filter_cons. destruct (decide (is_Some (vocab !! w))) as [Hw|Hw].
  - rewrite !store_loop_cons. destruct (vocab !! w) as [i|]; [|apply IH].
    destruct (setitem bow0 i (val w)); simpl; [apply IH|done].
  - rewrite store_loop_cons, IH.
    destruct (vocab !! w) as [i|]; [|done]. destruct Hw. by eexists.
Qed.

(** Two loops that meet the same known words and leave the same value at
    each position return the same vector, or raise both. *)
Lemma store_loop_same_vector (val val' : string → Z)
    (ws ws' : list string) (bow0 : tensor) :
  (∀ w, is_Some (vocab !! w) → w ∈ ws ↔ w ∈ ws') →
  (∀ p,
     (λ w, float32_of_int (val w)) <$>
       last (filter (λ w, writes_to vocab (length bow0) p w = true) ws) =
     (λ w, float32_of_int (val' w)) <$>
       last (filter (λ w, writes_to vocab (length bow0) p w = true) ws')) →
  match store_loop vocab val ws bow0, store_loop vocab val' ws' bow0 with
  | Ok bow, Ok bow' => bow = bow'
  | Raise _, Raise _ => True
  | _, _ => False
  end.
Proof.
  intros Hsame Hlast.
  destruct (store_loop vocab val ws bow0) as [bow|e] eqn:H1;
    destruct (store_loop vocab val' ws' bow0) as [bow'|e'] eqn:H2; [| | |done].
  - apply list_eq. intros p.
    destruct (store_loop_lookup _ _ _ _ _ H1) as [_ L1].
    destruct (store_loop_lookup _ _ _ _ _ H2) as [_ L2].
    rewrite (L1 p), (L2 p). specialize (Hlast p).
    destruct (last _) as [w|], (last _) as [w'|]; simpl in Hlast;
      congruence.
  - apply store_loop_Raise in H2 as (w & i & _ & Hin & Hw & Hn).
    assert (Hin' : w ∈ ws) by (apply Hsame; [by eexists|done]).
    destruct (store_loop_Ok_inv _ _ _ _ _ _ _ H1 Hin' Hw) as [q Hq].
    congruence.
  - apply store_loop_Raise in H1 as (w & i & _ & Hin & Hw & Hn).
    assert (Hin' : w ∈ ws') by (apply Hsame; [by eexists|done]).
    destruct (store_loop_Ok_inv _ _ _ _ _ _ _ H2 Hin' Hw) as [q Hq].
    congruence.
Qed.

(** The loop raises at the first word whose index designates no
    position. *)
Lemma store_loop_first_bad (val : string → Z) (pre post : list string)
    (w : string) (i : Z) (bow0 : tensor) :
  (∀ x j, x ∈ pre → vocab !! x = Some j →
          is_Some (normalize_index (length bow0) j)) →
  vocab !! w = Some i → normalize_index (length bow0) i = None →
  store_loop vocab val (pre ++ w :: post) bow0 = Raise (index_exn i).
Proof.
  intros Hpre Hw Hn. revert bow0 Hpre Hn.
  induction pre as [|x pre IH]; intros bow0 Hpre Hn.
  - simpl. rewrite store_loop_cons, Hw. unfold setitem. by rewrite Hn.
  - change ((x :: pre) ++ w :: post) with (x :: (pre ++ w :: post)).
    rewrite store_loop_cons.
    assert (Hrest : ∀ b, length b = length bow0 →
              store_loop vocab val (pre ++ w :: post) b = Raise (index_exn i)).
    { intros b Hb. apply IH; rewrite Hb; [|done].
      intros y j Hy. apply Hpre. by apply list_elem_of_further. }
    destruct (vocab !! x) as [j|] eqn:Hx; [|by apply Hrest].
    destruct (Hpre x j) as [q Hq]; [apply list_elem_of_here|done|].
    unfold setitem. rewrite Hq. simpl. apply Hrest, length_insert.
Qed.

(** A list with a word whose index designates no position splits at the
    first such word. *)
Lemma first_bad_word (n : nat) (ws : list string) (w : string) (i : Z) :
  w ∈ ws → vocab !! w = Some i → normalize_index n i = None →
  ∃ pre w0 post i0, ws = pre ++ w0 :: post ∧
    (∀ x j, x ∈ pre → vocab !! x = Some j →
            is_Some (normalize_index n j)) ∧
    vocab !! w0 = Some i0 ∧ normalize_index n i0 = None.
Proof.
  intros Hin Hw Hn.
  set (bad := λ x : string,
         match vocab !! x with
         | Some j => match normalize_index n j with
                     | Some _ => false
                     | None => true
                     end
         | None => false
         end).
  destruct (first_such bad ws) as (pre & w0 & post & -> & Hpre & Hbad).
  { apply Exists_exists. exists w. split; [done|].
    unfold bad. by rewrite Hw, Hn. }
  unfold bad in Hbad. destruct (vocab !! w0) as [i0|] eqn:Hw0; [|done].
  destruct (normalize_index n i0) eqn:Hn0; [done|].
  exists pre, w0, post, i0. split; [done|]. split; [|done].
  intros x j Hx Hj. rewrite Forall_forall in Hpre.
  specialize (Hpre x Hx). unfold bad in Hpre. rewrite Hj in Hpre.
  destruct (normalize_index n j); [by eexists|done].
Qed.

(** Whether some word of a list is stored at a position depends on the
    known words of the list only. *)
Lemma last_writer_is_Some (n p : nat) (ws ws' : list string) :
  (∀ w, is_Some (vocab !! w) → w ∈ ws ↔ w ∈ ws') →
  is_Some (last (filter (λ w, writes_to vocab n p w = true) ws)) →
  is_Some (last (filter (λ w, writes_to vocab n p w = true) ws')).
Proof.
  intros Hsame [w Hw]. apply last_filter_Some in Hw as [Hwr Hin].
  apply last_is_Some. intros Hnil.
  eapply (filter_nil_not_elem_of _ _ w); [exact Hnil|exact Hwr|].
  apply Hsame; [|done].
  apply writes_to_spec in Hwr as (i & Hi & _). by eexists.
Qed.

End StoreLoopMore.

Lemma first_occurrences_filter (P : string → Prop) `{∀ x, Decision (P x)}
    (text : list string) :
  first_occurrences (filter P text) = filter P (first_occurrences text).
Proof.
  induction text as [|w text IH] using rev_ind; [done|].
  rewrite filter_app, filter_cons, filter_nil, first_occurrences_snoc.
  destruct (decide (P w)) as [HP|HP].
  - rewrite first_occurrences_snoc, IH.
    destruct (decide (w ∈ first_occurrences text)) as [Hin|Hin].
    + rewrite decide_True; [done|]. by apply list_elem_of_filter.
    + rewrite decide_False by (by intros [_ ?]%list_elem_of_filter).
      rewrite filter_app, filter_cons_True by done. done.
  - rewrite app_nil_r, IH.
    destruct (decide (w ∈ first_occurrences text)) as [Hin|Hin]; [done|].
    rewrite filter_app, filter_cons_False by done. by rewrite app_nil_r.
Qed.

Lemma lookup_zeros_min (n p : nat) : Z.min 1 <$> zeros n !! p = zeros n !! p.
Proof.
  destruct (zeros n !! p) as [x|] eqn:Hx; [|done].
  apply lookup_replicate in Hx as [-> _]. done.
Qed.

(** ** The vectorizer on arbitrary mappings *)

(** X1. Tokens that the mapping does not know are dropped, whatever the
    mapping and the mode: the call on the text and the call on its known
    tokens alone have the same outcome, vector or exception. *)
Theorem bag_of_words_known (text : list string) (V : gmap string Z)
    (binary : bool) :
  bag_of_words (known V text) V binary = bag_of_words text V binary.
Proof.
  destruct binary.
  - rewrite !bag_of_words_binary. apply store_loop_known.
  - rewrite !bag_of_words_count. unfold known at 2.
    rewrite first_occurrences_filter.
    fold (known V (first_occurrences text)). rewrite store_loop_known.
    apply store_loop_ext. intros w _ Hw. unfold known.
    by rewrite occurrences_filter.
Qed.

(** X2. In binary mode only the set of tokens counts, whatever the
    mapping: two texts with the same words, in any order and with any
    repetitions, either return the same vector or raise both. (The
    exception is that of the first token whose index designates no
    position, so it may differ with the order.) *)
Theorem binary_mode_set_of_words (text text' : list string)
    (V : gmap string Z) :
  (∀ w, w ∈ text ↔ w ∈ text') →
  match bag_of_words text V true, bag_of_words text' V true with
  | Ok bow, Ok bow' => bow = bow'
  | Raise _, Raise _ => True
  | _, _ => False
  end.
Proof.
  intros Hsame. rewrite !bag_of_words_binary.
  apply store_loop_same_vector; [by intros w _|].
  intros p.
  destruct (last (filter _ text)) as [w|] eqn:H1;
    destruct (last (filter _ text')) as [w'|] eqn:H2; try done; exfalso.
  - destruct (last_writer_is_Some V (length (zeros (size V))) p text text')
      as [x Hx]; [by intros w0 _|by eexists|]. congruence.
  - destruct (last_writer_is_Some V (length (zeros (size V))) p text' text)
      as [x Hx]; [by intros w0 _|by eexists|]. congruence.
Qed.

Lemma binary_mode_set_of_words_witness :
  match bag_of_words ["a"; "b"; "a"] vocab_shared true,
        bag_of_words ["b"; "a"] vocab_shared true with
  | Ok bow, Ok bow' => bow = bow'
  | Raise _, Raise _ => True
  | _, _ => False
  end.
Proof.
  apply binary_mode_set_of_words. intros w.
  rewrite !elem_of_cons, !elem_of_nil. tauto.
Defined.

(** With two indices that designate no position the exception follows the
    order of the tokens. *)
Example exception_follows_order :
  bag_of_words ["a"; "b"] {[ "a" := 5; "b" := 2 ^ 63 ]} true =
    Raise IndexError ∧
  bag_of_words ["b"; "a"] {[ "a" := 5; "b" := 2 ^ 63 ]} true =
    Raise IndexOverflow.
Proof. split; vm_compute; reflexivity. Qed.

Lemma first_occurrences_first (pre post : list string) (w : string) :
  w ∉ pre →
  ∃ rest, first_occurrences (pre ++ w :: post) =
          first_occurrences pre ++ w :: rest.
Proof.
  intros Hw. rewrite first_occurrences_app.
  change (w :: post) with ([w] ++ post).
  rewrite (first_occurrences_app [w] post).
  change (first_occurrences [w]) with [w].
  rewrite (filter_app _ [w]), (filter_cons_True _ w), filter_nil by done.
  by eexists.
Qed.

(** X3. Binary mode is count mode clipped at 1, whatever the mapping: when
    count mode returns a vector, binary mode returns that vector with
    every non-zero entry replaced by 1, and when count mode raises, binary
    mode raises the same exception. *)
Theorem binary_is_clipped_count (text : list string) (V : gmap string Z) :
  bag_of_words text V true =
  match bag_of_words text V false with
  | Ok bow => Ok (Z.min 1 <$> bow)
  | Raise e => Raise e
  end.
Proof.
  rewrite bag_of_words_binary, bag_of_words_count.
  destruct (store_loop V (λ w, occurrences w text) (first_occurrences text)
              (zeros (size V))) as [bowc|e] eqn:Hc.
  - destruct (store_loop_Ok V (λ _, 1) text (zeros (size V))) as [bowb Hb].
    { intros w i Hin Hw. eapply store_loop_Ok_inv; [exact Hc| |exact Hw].
      by apply first_occurrences_elem. }
    rewrite Hb. f_equal. apply list_eq. intros p.
    destruct (store_loop_lookup _ _ _ _ _ Hb) as [_ Lb].
    destruct (store_loop_lookup _ _ _ _ _ Hc) as [_ Lc].
    rewrite list_lookup_fmap, (Lb p), (Lc p).
    destruct (last (filter _ text)) as [w|] eqn:H1;
      destruct (last (filter _ (first_occurrences text))) as [w'|] eqn:H2.
    + apply last_filter_Some in H2 as [_ Hin].
      apply (proj1 (first_occurrences_elem _ _)) in Hin.
      pose proof (occurrences_elem _ _ Hin).
      pose proof (float32_of_int_pos (occurrences w' text)).
      change (Some 1 =
              Some (Z.min 1 (float32_of_int (occurrences w' text)))).
      rewrite Z.min_l by lia. done.
    + exfalso.
      destruct (last_writer_is_Some V (length (zeros (size V))) p text
                  (first_occurrences text)) as [x Hx]; [|by eexists|congruence].
      intros w0 _. symmetry. apply first_occurrences_elem.
    + exfalso.
      destruct (last_writer_is_Some V (length (zeros (size V))) p
                  (first_occurrences text) text) as [x Hx];
        [|by eexists|congruence].
      intros w0 _. apply first_occurrences_elem.
    + by rewrite lookup_zeros_min.
  - pose proof Hc as Hc'.
    apply store_loop_Raise in Hc' as (w & i & _ & Hin & Hw & Hn).
    apply (proj1 (first_occurrences_elem _ _)) in Hin.
    destruct (first_bad_word V _ text w i Hin Hw Hn)
      as (pre & w0 & post & i0 & -> & Hpre & Hw0 & Hn0).
    rewrite (store_loop_first_bad V _ pre post w0 i0 _ Hpre Hw0 Hn0).
    assert (Hnew : w0 ∉ pre).
    { intros Hin0. destruct (Hpre w0 i0 Hin0 Hw0) as [q Hq]. congruence. }
    destruct (first_occurrences_first pre post w0 Hnew) as [rest Hrest].
    rewrite Hrest in Hc.
    rewrite (store_loop_first_bad V _ (first_occurrences pre) rest w0 i0)
      in Hc; [congruence| |done|done].
    intros x j Hx. apply Hpre. by apply first_occurrences_elem.
Qed.

(** X4. Whatever the mapping and the mode, a vector that the call returns
    is as long as the mapping, has no negative entry, and is non-zero
    exactly at the positions where a token of the text is stored; in
    binary mode its entries are 0 or 1. *)
Theorem bag_of_words_shape (text : list string) (V : gmap string Z)
    (binary : bool) (bow : tensor) :
  bag_of_words text V binary = Ok bow →
  length bow = size V ∧
  Forall (λ x, 0 ≤ x) bow ∧
  (binary = true → Forall (λ x, x = 0 ∨ x = 1) bow) ∧
  ∀ p x, bow !! p = Some x →
    (x ≠ 0 ↔ ∃ w i, w ∈ text ∧ V !! w = Some i ∧
                    normalize_index (size V) i = Some p).
Proof.
  intros Hbow.
  assert (Hent : length bow = size V ∧ ∀ p x, bow !! p = Some x →
            (1 ≤ x ∧ (binary = true → x = 1) ∧
             ∃ w, w ∈ text ∧ writes_to V (size V) p w = true) ∨
            (x = 0 ∧ ∀ w, w ∈ text → writes_to V (size V) p w ≠ true)).
  { destruct binary.
    - rewrite bag_of_words_binary in Hbow.
      destruct (store_loop_lookup _ _ _ _ _ Hbow) as [Hlen Hlook].
      rewrite length_zeros in Hlen, Hlook. split; [done|].
      intros p x Hx. rewrite (Hlook p) in Hx.
      destruct (last _) as [w|] eqn:Hl.
      + left. injection Hx as <-. apply last_filter_Some in Hl as [Hw Hin].
        split; [done|]. split; [done|]. by exists w.
      + right. apply lookup_replicate in Hx as [-> _]. split; [done|].
        intros w Hin. by eapply last_filter_None in Hl.
    - rewrite bag_of_words_count in Hbow.
      destruct (store_loop_lookup _ _ _ _ _ Hbow) as [Hlen Hlook].
      rewrite length_zeros in Hlen, Hlook. split; [done|].
      intros p x Hx. rewrite (Hlook p) in Hx.
      destruct (last _) as [w|] eqn:Hl.
      + left. injection Hx as <-. apply last_filter_Some in Hl as [Hw Hin].
        apply (proj1 (first_occurrences_elem _ _)) in Hin.
        split; [|split; [done|by exists w]].
        apply float32_of_int_pos. pose proof (occurrences_elem _ _ Hin). lia.
      + right. apply lookup_replicate in Hx as [-> _]. split; [done|].
        intros w Hin. eapply last_filter_None in Hl; [done|].
        by apply first_occurrences_elem. }
  destruct Hent as [Hlen Hent]. split; [done|].
  split.
  { apply Forall_lookup. intros p x Hx.
    destruct (Hent p x Hx) as [[? _]|[-> _]]; lia. }
  split.
  { intros Hb. apply Forall_lookup. intros p x Hx.
    destruct (Hent p x Hx) as [(_ & H1 & _)|[-> _]]; [right; by apply H1|by left]. }
  intros p x Hx. destruct (Hent p x Hx) as [(Hx1 & _ & w & Hin & Hw)|[-> Hno]].
  - split; [|lia]. intros _.
    apply writes_to_spec in Hw as (i & Hi & Hn). by exists w, i.
  - split; [done|]. intros (w & i & Hin & Hi & Hn). exfalso.
    apply (Hno w Hin). apply writes_to_spec. by exists i.
Qed.

Lemma bag_of_words_shape_witness :
  length [0; 2] = size ({[ "a" := -1; "b" := 0 ]} : gmap string Z).
Proof.
  exact (proj1 (bag_of_words_shape ["a"; "a"; "z"]
                  {[ "a" := -1; "b" := 0 ]} false [0; 2] eq_refl)).
Defined.

(** ** The vectorizer on vocabularies *)

Lemma occurrences_Permutation (w : string) (text text' : list string) :
  text ≡ₚ text' → occurrences w text = occurrences w text'.
Proof. intros Hp. unfold occurrences. by rewrite Hp. Qed.

(** The entry of each word of a vocabulary, in either mode. *)
Lemma Vocabulary_bag_of_words (V : gmap string Z) (text : list string)
    (binary : bool) :
  Vocabulary V →
  ∃ bow, bag_of_words text V binary = Ok bow ∧
    length bow = size V ∧
    ∀ w i, V !! w = Some i →
      bow !! Z.to_nat i =
        Some (if binary then (if decide (w ∈ text) then 1 else 0)
              else float32_of_int (occurrences w text)).
Proof.
  intros HV. destruct binary.
  - rewrite bag_of_words_binary.
    apply (Vocabulary_store_loop V HV (λ _, 1) text).
  - by apply count_mode_entries.
Qed.

(** Up to [2 ^ 24] tokens every entry of count mode is an exact count. *)
Lemma exact_count_entries (V : gmap string Z) (text : list string) :
  Vocabulary V → Z.of_nat (length text) ≤ exact_max →
  ∃ bow, bag_of_words text V false = Ok bow ∧
    length bow = size V ∧
    ∀ w i, V !! w = Some i → bow !! Z.to_nat i = Some (occurrences w text).
Proof.
  intros HV Hlen.
  destruct (count_mode_entries V text HV) as (bow & Hbow & Hl & Hent).
  exists bow. split; [done|]. split; [done|].
  intros w i Hw. rewrite (Hent w i Hw), float32_of_int_exact; [done|].
  pose proof (occurrences_nonneg w text).
  pose proof (occurrences_le_length w text). lia.
Qed.

Lemma total_zeros (n : nat) : total (zeros n) = 0.
Proof. induction n as [|n IH]; simpl; [done|]. unfold zeros in IH. by rewrite IH. Qed.

Lemma total_insert (t : tensor) (k : nat) (old v : Z) :
  t !! k = Some old → total (<[k := v]> t) = total t - old + v.
Proof.
  revert k. induction t as [|x t IH]; intros k Hk; [done|].
  destruct k as [|k]; simpl in *.
  - injection Hk as ->. lia.
  - rewrite (IH k Hk). lia.
Qed.

(** Up to [2 ^ 24] tokens the counts of a vocabulary add up to the number
    of known tokens. *)
Lemma total_exact_counts (V : gmap string Z) (text : list string)
    (bow : tensor) :
  Vocabulary V → Z.of_nat (length text) ≤ exact_max →
  bag_of_words text V false = Ok bow →
  total bow = Z.of_nat (length (known V text)).
Proof.
  intros HV. revert bow.
  induction text as [|w text IH] using rev_ind; intros bow' Hlen Hbow'.
  - rewrite bag_of_words_count in Hbow'. injection Hbow' as <-.
    apply total_zeros.
  - rewrite length_app in Hlen. simpl in Hlen.
    destruct (exact_count_entries V text HV) as (bow & Hbow & Hl & Hent);
      [lia|].
    destruct (exact_count_entries V (text ++ [w]) HV)
      as (bow2 & Hbow2 & Hl2 & Hent2); [rewrite length_app; simpl; lia|].
    assert (bow2 = bow') as -> by congruence.
    specialize (IH bow ltac:(lia) Hbow).
    unfold known in *. rewrite filter_app, filter_cons, filter_nil.
    destruct (decide (is_Some (V !! w))) as [[i Hw]|Hw].
    + assert (Hi : (Z.to_nat i < length bow)%nat).
      { rewrite Hl. pose proof (vocab_range V HV w i Hw). lia. }
      assert (bow' = <[Z.to_nat i := occurrences w text + 1]> bow) as ->.
      { apply (Vocabulary_tensor_eq V); [done|done|by rewrite length_insert|].
        intros x j Hx. rewrite (Hent2 x j Hx), occurrences_snoc.
        destruct (decide (w = x)) as [<-|Hne].
        - assert (j = i) as -> by congruence.
          by rewrite list_lookup_insert_eq.
        - rewrite list_lookup_insert_ne, (Hent x j Hx), Z.add_0_r; [done|].
          intros Heq. apply Hne.
          pose proof (vocab_range V HV w i Hw).
          pose proof (vocab_range V HV x j Hx).
          assert (i = j) as -> by lia.
          exact (vocab_inj V HV w x j Hw Hx). }
      rewrite (total_insert _ _ _ _ (Hent w i Hw)), IH, length_app. simpl. lia.
    + assert (bow' = bow) as ->.
      { apply (Vocabulary_tensor_eq V); [done..|].
        intros x j Hx. rewrite (Hent2 x j Hx), (Hent x j Hx), occurrences_snoc.
        rewrite decide_False, Z.add_0_r; [done|].
        intros ->. apply Hw. by eexists. }
      by rewrite app_nil_r.
Qed.

(** X5. On a vocabulary the order of the tokens does not matter, in either
    mode: two texts that are permutations of each other give the same
    vector. *)
Theorem bag_of_words_order_free (V : gmap string Z) (text text' : list string)
    (binary : bool) :
  Vocabulary V → text ≡ₚ text' →
  bag_of_words text V binary = bag_of_words text' V binary.
Proof.
  intros HV Hp.
  destruct (Vocabulary_bag_of_words V text binary HV)
    as (bow & -> & Hl & Hent).
  destruct (Vocabulary_bag_of_words V text' binary HV)
    as (bow' & -> & Hl' & Hent').
  f_equal. apply (Vocabulary_tensor_eq V); [done..|].
  intros w i Hw. rewrite (Hent w i Hw), (Hent' w i Hw).
  rewrite (occurrences_Permutation w text text' Hp).
  destruct binary; [|done].
  destruct (decide (w ∈ text)) as [Hin|Hin];
    destruct (decide (w ∈ text')) as [Hin'|Hin']; try done; exfalso.
  - apply Hin'. by rewrite <-Hp.
  - apply Hin. by rewrite Hp.
Qed.

Lemma bag_of_words_order_free_witness :
  bag_of_words ["a"; "z"; "a"] vocab_a false =
  bag_of_words ["z"; "a"; "a"] vocab_a false.
Proof.
  apply bag_of_words_order_free; [exact Vocabulary_vocab_a|apply perm_swap].
Defined.

(** X6. On a vocabulary, for a text of at most [2 ^ 24] tokens, the
    entries of the count vector add up to the number of tokens of the text
    that the vocabulary knows. *)
Theorem count_vector_total (V : gmap string Z) (text : list string)
    (bow : tensor) :
  Vocabulary V → Z.of_nat (length text) ≤ exact_max →
  bag_of_words text V false = Ok bow →
  total bow = Z.of_nat (length (known V text)).
Proof. apply total_exact_counts. Qed.

Lemma count_vector_total_witness :
  total [2] = Z.of_nat (length (known vocab_a ["a"; "z"; "a"])).
Proof.
  apply (count_vector_total vocab_a ["a"; "z"; "a"] [2]).
  - exact Vocabulary_vocab_a.
  - unfold exact_max. simpl. lia.
  - reflexivity.
Defined.

(** ** Vocabulary and vectorizer together *)

(** X7. The order in which the set of words is iterated changes the
    indices but not the vectors' content: for two iteration orders, the
    vocabularies of the same examples have the same size, both calls
    return a vector, and each word of the examples has the same entry in
    the two vectors, each at its own index. *)
Theorem vectors_agree_across_orders (O1 O2 : SetOrder)
    (examples : list SentimentExample) (text : list string) (binary : bool) :
  let V1 := @build_vocab O1 examples in
  let V2 := @build_vocab O2 examples in
  size V1 = size V2 ∧
  ∃ bow1 bow2,
    bag_of_words text V1 binary = Ok bow1 ∧
    bag_of_words text V2 binary = Ok bow2 ∧
    length bow1 = length bow2 ∧
    ∀ w, w ∈ all_words examples →
      ∃ i1 i2, V1 !! w = Some i1 ∧ V2 !! w = Some i2 ∧
        bow1 !! Z.to_nat i1 = bow2 !! Z.to_nat i2.
Proof.
  intros V1 V2.
  assert (Hsize : size V1 = size V2).
  { unfold V1, V2. by rewrite !build_vocab_size. }
  split; [done|].
  destruct (Vocabulary_bag_of_words V1 text binary
              (@build_vocab_Vocabulary O1 examples)) as (bow1 & H1 & L1 & E1).
  destruct (Vocabulary_bag_of_words V2 text binary
              (@build_vocab_Vocabulary O2 examples)) as (bow2 & H2 & L2 & E2).
  exists bow1, bow2. split; [done|]. split; [done|].
  split; [congruence|].
  intros w Hw.
  assert (Hk : ∀ O : SetOrder, ∃ i, @build_vocab O examples !! w = Some i).
  { intros O. apply (proj2 (@list_set_elem O _ _)) in Hw.
    apply list_elem_of_lookup_1 in Hw as [k Hk]. exists (Z.of_nat k).
    apply build_vocab_lookup. by exists k. }
  destruct (Hk O1) as [i1 Hi1]. destruct (Hk O2) as [i2 Hi2].
  exists i1, i2. split; [done|]. split; [done|].
  by rewrite (E1 w i1 Hi1), (E2 w i2 Hi2).
Qed.

(** X8. A vocabulary built from a list of examples knows every token of
    each of them: on the tokens of such an example nothing is dropped, the
    binary vector has a 1 at the index of each token, and, for at most
    [2 ^ 24] tokens, the counts add up to the number of tokens. *)
Theorem training_example_fully_known `{SetOrder}
    (examples : list SentimentExample) (ex : SentimentExample) :
  ex ∈ examples →
  let V := build_vocab examples in
  known V (words ex) = words ex ∧
  (∃ bow, bag_of_words (words ex) V true = Ok bow ∧
     length bow = size V ∧
     ∀ w, w ∈ words ex →
       ∃ i, V !! w = Some i ∧ bow !! Z.to_nat i = Some 1) ∧
  (Z.of_nat (length (words ex)) ≤ exact_max →
   ∃ bow, bag_of_words (words ex) V false = Ok bow ∧
     total bow = Z.of_nat (length (words ex))).
Proof.
  intros Hex V.
  assert (Hknown : ∀ w, w ∈ words ex → ∃ i, V !! w = Some i).
  { intros w Hw.
    assert (Hall : w ∈ list_set (all_words examples)).
    { apply list_set_elem, all_words_elem. by exists ex. }
    apply list_elem_of_lookup_1 in Hall as [k Hk]. exists (Z.of_nat k).
    apply build_vocab_lookup. by exists k. }
  assert (Hfilter : known V (words ex) = words ex).
  { unfold known. induction (words ex) as [|w ws IH]; [done|].
    rewrite filter_cons_True.
    - f_equal. apply IH. intros x Hx. apply Hknown.
      by apply list_elem_of_further.
    - destruct (Hknown w) as [i Hi]; [apply list_elem_of_here|by eexists]. }
  split; [done|]. split.
  - destruct (Vocabulary_bag_of_words V (words ex) true
                (build_vocab_Vocabulary examples)) as (bow & Hbow & Hl & Hent).
    exists bow. split; [done|]. split; [done|].
    intros w Hw. destruct (Hknown w Hw) as [i Hi]. exists i.
    split; [done|]. by rewrite (Hent w i Hi), decide_True.
  - intros Hlen.
    destruct (exact_count_entries V (words ex)
                (build_vocab_Vocabulary examples) Hlen) as (bow & Hbow & _).
    exists bow. split; [done|].
    rewrite (total_exact_counts V (words ex) bow
               (build_vocab_Vocabulary examples) Hlen Hbow).
    by rewrite Hfilter.
Qed.

Lemma training_example_fully_known_witness :
  known (build_vocab [mkSentimentExample ["good"; "movie"; "good"] 1])
    ["good"; "movie"; "good"] = ["good"; "movie"; "good"].
Proof.
  exact (proj1 (training_example_fully_known
                  [mkSentimentExample ["good"; "movie"; "good"] 1]
                  (mkSentimentExample ["good"; "movie"; "good"] 1)
                  (list_elem_of_here _ _))).
Defined.

(** ** More facts about lines and fields *)

Lemma mapM_result_app {A B} (f : A → result B) (l1 l2 : list A) :
  mapM f (l1 ++ l2) =
  k1 ← mapM f l1; k2 ← mapM f l2; mret (k1 ++ k2).
Proof.
  induction l1 as [|x l1 IH]; simpl.
  - by destruct (mapM f l2).
  - destruct (f x) as [y|e]; simpl; [|done]. rewrite IH.
    destruct (mapM f l1) as [k1|e]; simpl; [|done].
    by destruct (mapM f l2).
Qed.

Lemma last_char_cons (c : ascii) (s : string) :
  s ≠ EmptyString → last_char (String c s) = last_char s.
Proof. by destruct s. Qed.

Lemma last_char_None (s : string) : last_char s = None ↔ s = EmptyString.
Proof.
  induction s as [|c s IH]; [done|]. split; [|done].
  destruct s as [|c' s]; [done|]. intros H. by apply IH in H.
Qed.

(** The text after a carriage return, without the line feed that may
    follow it. *)
Lemma universal_newlines_cons (c : ascii) (s : string) :
  Py.universal_newlines (String c s) =
  if Ascii.eqb c Py.CR then
    String Py.LF (Py.universal_newlines
      match s with
      | String c' s' => if Ascii.eqb c' Py.LF then s' else s
      | EmptyString => EmptyString
      end)
  else String c (Py.universal_newlines s).
Proof.
  simpl. destruct (Ascii.eqb c Py.CR); [|done].
  destruct s as [|c' s']; [done|]. by destruct (Ascii.eqb c' Py.LF).
Qed.

(** Up to a character that is no carriage return the translation of the
    line ends goes character by character. *)
Lemma universal_newlines_app (a b : string) (c : ascii) :
  last_char a = Some c → c ≠ Py.CR →
  Py.universal_newlines (a +:+ b) =
    Py.universal_newlines a +:+ Py.universal_newlines b ∧
  last_char (Py.universal_newlines a) = Some c.
Proof.
  remember (String.length a) as n eqn:Hn. revert a Hn.
  induction n as [n IH] using lt_wf_ind. intros a Hn Hlast Hc.
  assert (Hrec : ∀ a', (String.length a' < n)%nat →
            last_char a' = Some c →
            Py.universal_newlines (a' +:+ b) =
              Py.universal_newlines a' +:+ Py.universal_newlines b ∧
            last_char (Py.universal_newlines a') = Some c).
  { intros a' Hlt Hl. by eapply IH. }
  assert (Hcons : ∀ x a', a' ≠ EmptyString →
            last_char (Py.universal_newlines a') = Some c →
            last_char (String x (Py.universal_newlines a')) = Some c).
  { intros x a' Hne Hl. rewrite last_char_cons; [done|].
    intros Hnil. by rewrite Hnil in Hl. }
  clear IH. destruct a as [|x a]; [done|]. simpl in Hn.
  change (String x a +:+ b) with (String x (a +:+ b)).
  rewrite !universal_newlines_cons.
  destruct a as [|y a].
  - simpl in Hlast. injection Hlast as ->.
    destruct (Ascii.eqb c Py.CR) eqn:Hx; [by apply Ascii.eqb_eq in Hx|].
    done.
  - rewrite last_char_cons in Hlast by done.
    change (String y a +:+ b) with (String y (a +:+ b)).
    destruct (Ascii.eqb x Py.CR); [destruct (Ascii.eqb y Py.LF) eqn:Hy|].
    + destruct a as [|z a].
      * simpl in Hlast. injection Hlast as ->.
        apply Ascii.eqb_eq in Hy as ->. done.
      * rewrite last_char_cons in Hlast by done.
        destruct (Hrec (String z a)) as [H1 H2]; [simpl in *; lia|done|].
        rewrite H1. split; [done|]. by apply Hcons.
    + destruct (Hrec (String y a)) as [H1 H2]; [simpl in *; lia|done|].
      change (String y a +:+ b) with (String y (a +:+ b)) in H1.
      rewrite H1. split; [done|]. by apply Hcons.
    + destruct (Hrec (String y a)) as [H1 H2]; [simpl in *; lia|done|].
      change (String y a +:+ b) with (String y (a +:+ b)) in H1.
      rewrite H1. split; [done|]. by apply Hcons.
Qed.

Lemma universal_newlines_nil (s : string) :
  Py.universal_newlines s = EmptyString ↔ s = EmptyString.
Proof.
  split; [|by intros ->]. destruct s as [|c s]; [done|].
  rewrite universal_newlines_cons. by destruct (Ascii.eqb c Py.CR).
Qed.

Lemma lines_keepends_nil (s : string) :
  Py.lines_keepends s = [] ↔ s = EmptyString.
Proof.
  split; [|by intros ->]. destruct s as [|c s]; [done|]. simpl.
  destruct (Ascii.eqb c Py.LF); [done|].
  by destruct (Py.lines_keepends s).
Qed.

Lemma file_lines_nil (text : string) :
  file_lines text = [] ↔ text = EmptyString.
Proof.
  unfold file_lines. by rewrite lines_keepends_nil, universal_newlines_nil.
Qed.

(** After a complete last line the lines of what follows come as they
    are. *)
Lemma lines_keepends_app (a b : string) :
  terminated a →
  Py.lines_keepends (a +:+ b) = Py.lines_keepends a ++ Py.lines_keepends b.
Proof.
  induction a as [|x a IH]; intros Ha; [done|].
  destruct Ha as [Ha|Ha]; [done|].
  assert (Ha' : terminated a).
  { destruct a as [|y a]; [by left|right]. by rewrite last_char_cons in Ha. }
  change (String x a +:+ b) with (String x (a +:+ b)). simpl.
  rewrite (IH Ha'). destruct (Ascii.eqb x Py.LF) eqn:Hx; [done|].
  destruct a as [|y a].
  - simpl in Ha. injection Ha as ->. by rewrite Ascii.eqb_refl in Hx.
  - destruct (Py.lines_keepends (String y a)) as [|l ls] eqn:Hl; [|done].
    by apply lines_keepends_nil in Hl.
Qed.

Lemma lines_keepends_cons (x : ascii) (s : string) :
  Py.lines_keepends (String x s) =
  if Ascii.eqb x Py.LF then String x EmptyString :: Py.lines_keepends s
  else match Py.lines_keepends s with
       | l :: ls => String x l :: ls
       | [] => [String x EmptyString]
       end.
Proof. reflexivity. Qed.

(** A line feed after an incomplete last line completes that line. *)
Lemma lines_keepends_complete (a : string) (c : ascii) :
  last_char a = Some c → c ≠ Py.LF →
  ∃ init l,
    Py.lines_keepends a = init ++ [l] ∧
    Py.lines_keepends (a +:+ String Py.LF EmptyString) =
      init ++ [l +:+ String Py.LF EmptyString].
Proof.
  induction a as [|x a IH]; intros Hlast Hc; [done|].
  change (String x a +:+ String Py.LF EmptyString)
    with (String x (a +:+ String Py.LF EmptyString)).
  destruct (decide (a = EmptyString)) as [->|Hne].
  - simpl in Hlast. injection Hlast as ->.
    exists [], (String c EmptyString). simpl.
    destruct (Ascii.eqb c Py.LF) eqn:E; [by apply Ascii.eqb_eq in E|].
    done.
  - rewrite last_char_cons in Hlast by done.
    destruct (IH Hlast Hc) as (init & l & H1 & H2).
    rewrite !lines_keepends_cons, H1, H2. destruct (Ascii.eqb x Py.LF).
    + by exists (String x EmptyString :: init), l.
    + destruct init as [|i0 init]; simpl.
      * by exists [], (String x l).
      * by exists (String x i0 :: init), l.
Qed.

(** ** A line feed after the label *)

Lemma int_literal_unfold (s : string) :
  Py.int_literal s =
  match Py.lstrip s with
  | EmptyString => None
  | String c r =>
      if Ascii.eqb c "+" then Py.int_unsigned r
      else if Ascii.eqb c "-" then Z.opp <$> Py.int_unsigned r
      else Py.int_unsigned (String c r)
  end.
Proof.
  unfold Py.int_literal. destruct (Py.lstrip s) as [|c r]; [done|].
  by destruct c as [[] [] [] [] [] [] [] []].
Qed.

Lemma literal_digits_unfold (s : string) :
  Py.literal_digits s =
  match Py.lstrip s with
  | EmptyString => 0
  | String c r =>
      if Ascii.eqb c "+" then Py.scan_digits r
      else if Ascii.eqb c "-" then Py.scan_digits r
      else Py.scan_digits (String c r)
  end.
Proof.
  unfold Py.literal_digits. destruct (Py.lstrip s) as [|c r]; [done|].
  by destruct c as [[] [] [] [] [] [] [] []].
Qed.

Lemma scan_digits_app_LF (s : string) :
  Py.scan_digits (s +:+ String Py.LF EmptyString) = Py.scan_digits s.
Proof.
  induction s as [|c s IH]; [done|].
  change (String c s +:+ String Py.LF EmptyString)
    with (String c (s +:+ String Py.LF EmptyString)).
  simpl. rewrite IH. done.
Qed.

Lemma lstrip_app_LF (s : string) :
  Py.lstrip (s +:+ String Py.LF EmptyString) =
  if Py.all_space s then EmptyString
  else Py.lstrip s +:+ String Py.LF EmptyString.
Proof.
  induction s as [|c s IH]; [done|].
  change (String c s +:+ String Py.LF EmptyString)
    with (String c (s +:+ String Py.LF EmptyString)).
  simpl. destruct (Py.is_space c); [by rewrite IH|done].
Qed.

Lemma lstrip_all_space (s : string) :
  Py.all_space s = true → Py.lstrip s = EmptyString.
Proof.
  induction s as [|c s IH]; [done|]. simpl.
  destruct (Py.is_space c); [apply IH|done].
Qed.

Lemma all_space_app_LF (s : string) :
  Py.all_space (s +:+ String Py.LF EmptyString) = Py.all_space s.
Proof.
  induction s as [|c s IH]; [done|].
  change (String c s +:+ String Py.LF EmptyString)
    with (String c (s +:+ String Py.LF EmptyString)).
  simpl. by rewrite IH.
Qed.

Lemma int_digits_app_LF (prev_us : bool) (acc : Z) (s : string) :
  Py.int_digits prev_us acc (s +:+ String Py.LF EmptyString) =
  (λ vr : Z * string, (vr.1, vr.2 +:+ String Py.LF EmptyString)) <$>
    Py.int_digits prev_us acc s.
Proof.
  revert prev_us acc. induction s as [|c s IH]; intros prev_us acc.
  - by destruct prev_us.
  - change (String c s +:+ String Py.LF EmptyString)
      with (String c (s +:+ String Py.LF EmptyString)).
    simpl. destruct (Py.digit_val c) as [d|]; [apply IH|].
    destruct (Ascii.eqb c Py.UNDERSCORE); destruct prev_us; done.
Qed.

Lemma int_unsigned_app_LF (s : string) :
  Py.int_unsigned (s +:+ String Py.LF EmptyString) = Py.int_unsigned s.
Proof.
  destruct s as [|c s]; [done|].
  change (String c s +:+ String Py.LF EmptyString)
    with (String c (s +:+ String Py.LF EmptyString)).
  unfold Py.int_unsigned. destruct (Py.digit_val c) as [d|]; [|done].
  rewrite int_digits_app_LF.
  destruct (Py.int_digits false d s) as [[v rest]|]; [|done].
  simpl. by rewrite all_space_app_LF.
Qed.

Lemma lstrip_not_all_space (s : string) :
  Py.all_space s = false → Py.lstrip s ≠ EmptyString.
Proof.
  induction s as [|c s IH]; [done|]. simpl.
  destruct (Py.is_space c); [apply IH|done].
Qed.

Lemma int_literal_app_LF (s : string) :
  Py.int_literal (s +:+ String Py.LF EmptyString) = Py.int_literal s.
Proof.
  rewrite !int_literal_unfold, lstrip_app_LF.
  destruct (Py.all_space s) eqn:Hs; [by rewrite lstrip_all_space|].
  pose proof (lstrip_not_all_space s Hs) as Hne.
  destruct (Py.lstrip s) as [|c r]; [done|].
  change (String c r +:+ String Py.LF EmptyString)
    with (String c (r +:+ String Py.LF EmptyString)).
  cbv beta iota. rewrite (int_unsigned_app_LF r).
  change (String c (r +:+ String Py.LF EmptyString))
    with (String c r +:+ String Py.LF EmptyString).
  by rewrite (int_unsigned_app_LF (String c r)).
Qed.

Lemma literal_digits_app_LF (s : string) :
  Py.literal_digits (s +:+ String Py.LF EmptyString) = Py.literal_digits s.
Proof.
  rewrite !literal_digits_unfold, lstrip_app_LF.
  destruct (Py.all_space s) eqn:Hs; [by rewrite lstrip_all_space|].
  pose proof (lstrip_not_all_space s Hs) as Hne.
  destruct (Py.lstrip s) as [|c r]; [done|].
  change (String c r +:+ String Py.LF EmptyString)
    with (String c (r +:+ String Py.LF EmptyString)).
  cbv beta iota. rewrite (scan_digits_app_LF r).
  change (String c (r +:+ String Py.LF EmptyString))
    with (String c r +:+ String Py.LF EmptyString).
  by rewrite (scan_digits_app_LF (String c r)).
Qed.

(** The line feed that ends a line does not change the integer that its
    last field denotes, nor whether it denotes one. *)
Lemma int_opt_app_LF (s : string) :
  Py.int_opt (s +:+ String Py.LF EmptyString) = Py.int_opt s.
Proof.
  unfold Py.int_opt. by rewrite literal_digits_app_LF, int_literal_app_LF.
Qed.

Lemma after_app (c : ascii) (s t : string) :
  after c (s +:+ t) =
  match after c s with Some r => Some (r +:+ t) | None => after c t end.
Proof.
  induction s as [|a s IH]; [done|].
  change (String a s +:+ t) with (String a (s +:+ t)). simpl.
  by destruct (Ascii.eqb a c).
Qed.

Lemma before_app (c : ascii) (s t : string) :
  before c (s +:+ t) =
  match after c s with Some _ => before c s | None => s +:+ before c t end.
Proof.
  induction s as [|a s IH]; [done|].
  change (String a s +:+ t) with (String a (s +:+ t)). simpl.
  destruct (Ascii.eqb a c); [done|]. rewrite IH.
  by destruct (after c s).
Qed.

Lemma before_no_sep (c : ascii) (s : string) :
  after c s = None → before c s = s.
Proof.
  induction s as [|a s IH]; [done|]. simpl.
  destruct (Ascii.eqb a c); [done|]. intros H. by rewrite IH.
Qed.

(** A line and the same line followed by a line feed convert alike. *)
Lemma parse_line_app_LF (tokenize : string → list string) (line : string) :
  parse_line tokenize (line +:+ String Py.LF EmptyString) =
  parse_line tokenize line.
Proof.
  rewrite !parse_line_unfold. unfold label_field, text_field.
  rewrite after_app, before_app.
  destruct (after Py.TAB line) as [r|]; [|done].
  simpl. rewrite before_app.
  destruct (after Py.TAB r) eqn:Hr; [done|].
  rewrite (before_no_sep _ _ Hr).
  change (before Py.TAB (String Py.LF EmptyString))
    with (String Py.LF EmptyString).
  by rewrite int_opt_app_LF.
Qed.

Lemma file_lines_app (text1 text2 : string) :
  terminated text1 →
  file_lines (text1 +:+ text2) = file_lines text1 ++ file_lines text2.
Proof.
  intros [->|Hlast]; [done|]. unfold file_lines.
  destruct (universal_newlines_app text1 text2 Py.LF Hlast) as [-> Hl];
    [done|].
  apply lines_keepends_app. by right.
Qed.

(** ** The reader: further properties *)

Lemma mapM_Raise_elem {A B} (f : A → result B) (l : list A) (e : exn) :
  mapM f l = Raise e → ∃ x, x ∈ l ∧ f x = Raise e.
Proof.
  intros Hm. destruct (mapM_first_failure f l)
    as [Hall|(pre & x & post & e' & -> & Hpre & Hx)].
  - destruct (mapM_all_Ok f l Hall) as [k Hk]. congruence.
  - rewrite (mapM_Raise_first f pre post x e' Hpre Hx) in Hm.
    injection Hm as <-. exists x. split; [|done].
    apply elem_of_app. right. apply list_elem_of_here.
Qed.

Lemma parse_line_Raise_kind (tokenize : string → list string)
    (line : string) (e : exn) :
  parse_line tokenize line = Raise e → e = IndexError ∨ e = ValueError.
Proof.
  rewrite parse_line_unfold.
  destruct (label_field line) as [field|]; [|intros [= <-]; by left].
  destruct (Py.int_opt field); [done|]. intros [= <-]. by right.
Qed.

(** X9. What decides the outcome of a read. An exception of opening or
    reading the file goes through as it is. The call returns a list
    exactly when the file can be read as text and each of its lines has a
    tab and a second field that [int] accepts; on a file that can be read
    the only exceptions are [IndexError] and [ValueError]. *)
Theorem read_outcome (tokenize : string → list string)
    (fs : Py.filesystem) (infile : string) :
  (fs infile = None →
   read_sentiment_examples tokenize fs infile =
     Raise (Py.open_error fs infile)) ∧
  (is_Ok (read_sentiment_examples tokenize fs infile) ↔
   ∃ text, fs infile = Some text ∧
     Forall (λ l, malformed l = false) (file_lines text)) ∧
  (∀ text e, fs infile = Some text →
     read_sentiment_examples tokenize fs infile = Raise e →
     e = IndexError ∨ e = ValueError).
Proof.
  destruct (fs infile) as [text|] eqn:Hfs.
  - rewrite (read_unfold tokenize _ _ _ Hfs). split; [done|]. split.
    + split.
      * intros [exs Hexs]. exists text. split; [done|].
        apply Forall_lookup. intros i line Hi.
        destruct (mapM_Ok_lookup _ _ _ _ _ Hexs Hi) as (ex & _ & Hp).
        destruct (malformed line) eqn:Hm; [|done].
        rewrite (parse_line_malformed tokenize _ Hm) in Hp. done.
      * intros (text' & [= <-] & Hall).
        by apply mapM_all_Ok, good_lines_Ok.
    + intros text' e _ (x & _ & Hx)%mapM_Raise_elem.
      by eapply parse_line_Raise_kind.
  - unfold read_sentiment_examples, Py.open_readlines. rewrite Hfs. simpl.
    split; [done|]. split; [|done]. split.
    + by intros [exs Hexs].
    + by intros (text & ? & _).
Qed.

(** X10. A readable file gives the empty list of examples exactly when it
    is empty. *)
Theorem read_empty_file (tokenize : string → list string)
    (fs : Py.filesystem) (infile text : string) :
  fs infile = Some text →
  read_sentiment_examples tokenize fs infile = Ok [] ↔ text = EmptyString.
Proof.
  intros Hfs. rewrite (read_unfold tokenize _ _ _ Hfs). split.
  - intros Hm%mapM_Ok_length. apply file_lines_nil.
    by apply nil_length_inv.
  - by intros ->.
Qed.

Lemma read_empty_file_witness :
  read_sentiment_examples split_whitespace
    (one_file "corpus.tsv" EmptyString) "corpus.tsv" = Ok [].
Proof.
  exact (proj2 (read_empty_file split_whitespace
                  (one_file "corpus.tsv" EmptyString) "corpus.tsv"
                  EmptyString eq_refl) eq_refl).
Defined.

(** X11. The line feed at the end of the file is optional: a file that
    ends in the middle of a line and the same file with a line feed added
    have the same outcome, examples or exception. *)
Theorem final_newline_optional (tokenize : string → list string)
    (fs : Py.filesystem) (infile infile' text : string) :
  fs infile = Some text →
  fs infile' = Some (text +:+ String Py.LF EmptyString) →
  unterminated text →
  read_sentiment_examples tokenize fs infile' =
  read_sentiment_examples tokenize fs infile.
Proof.
  intros Hfs Hfs' (c & Hlast & HLF & HCR).
  rewrite (read_unfold tokenize _ _ _ Hfs), (read_unfold tokenize _ _ _ Hfs').
  unfold file_lines.
  destruct (universal_newlines_app text (String Py.LF EmptyString) c
              Hlast HCR) as [-> Hl].
  change (Py.universal_newlines (String Py.LF EmptyString))
    with (String Py.LF EmptyString).
  destruct (lines_keepends_complete _ c Hl HLF) as (init & l & -> & ->).
  rewrite !mapM_result_app. simpl. by rewrite parse_line_app_LF.
Qed.

Lemma final_newline_optional_witness :
  read_sentiment_examples split_whitespace cut_corpus "full.tsv" =
  read_sentiment_examples split_whitespace cut_corpus "cut.tsv".
Proof.
  apply (final_newline_optional split_whitespace cut_corpus
           "cut.tsv" "full.tsv" ("good movie" +:+ String Py.TAB "1")).
  - reflexivity.
  - reflexivity.
  - exists "1"%char. split; [reflexivity|]. split; discriminate.
Defined.

(** X12. Reading the concatenation of two files, the first of which is
    empty or ends with a line feed, is reading the one and then the other:
    the examples of the first followed by those of the second, or the
    exception that comes first. *)
Theorem read_concatenation (tokenize : string → list string)
    (fs : Py.filesystem) (infile1 infile2 infile text1 text2 : string) :
  fs infile1 = Some text1 → fs infile2 = Some text2 →
  fs infile = Some (text1 +:+ text2) →
  terminated text1 →
  read_sentiment_examples tokenize fs infile =
    (examples1 ← read_sentiment_examples tokenize fs infile1;
     examples2 ← read_sentiment_examples tokenize fs infile2;
     mret (examples1 ++ examples2)).
Proof.
  intros H1 H2 H12 Hterm.
  rewrite (read_unfold tokenize _ _ _ H1), (read_unfold tokenize _ _ _ H2),
    (read_unfold tokenize _ _ _ H12).
  rewrite (file_lines_app _ _ Hterm). apply mapM_result_app.
Qed.

Lemma read_concatenation_witness :
  read_sentiment_examples split_whitespace split_corpus "whole.tsv" =
    (examples1 ← read_sentiment_examples split_whitespace split_corpus
                   "part1.tsv";
     examples2 ← read_sentiment_examples split_whitespace split_corpus
                   "part2.tsv";
     mret (examples1 ++ examples2)).
Proof.
  apply (read_concatenation split_whitespace split_corpus
           "part1.tsv" "part2.tsv" "whole.tsv"
           (tsv "good movie" "1") (tsv "bad movie" "0")).
  - reflexivity.
  - reflexivity.
  - reflexivity.
  - right. reflexivity.
Defined.

(** The translation of the line ends undoes [to_crlf]. *)
Lemma universal_newlines_to_crlf (text : string) :
  count_char Py.CR text = O →
  Py.universal_newlines (to_crlf text) = Py.universal_newlines text.
Proof.
  induction text as [|c s IH]; [done|]. intros Hc.
  change (count_char Py.CR (String c s))
    with ((if Ascii.eqb c Py.CR then 1 else 0) + count_char Py.CR s)%nat in Hc.
  destruct (Ascii.eqb c Py.CR) eqn:Hcr; [lia|].
  rewrite (universal_newlines_cons c s), Hcr.
  change (to_crlf (String c s))
    with (if Ascii.eqb c Py.LF then String Py.CR (String Py.LF (to_crlf s))
          else String c (to_crlf s)).
  destruct (Ascii.eqb c Py.LF) eqn:Hlf.
  - apply Ascii.eqb_eq in Hlf as ->.
    rewrite universal_newlines_cons.
    change (Ascii.eqb Py.CR Py.CR) with true.
    change (Ascii.eqb Py.LF Py.LF) with true. cbv iota.
    rewrite IH by lia. done.
  - rewrite universal_newlines_cons, Hcr, IH by lia. done.
Qed.

(** X13. Line ends written as a carriage return and a line feed are read
    as line feeds: a file without other carriage returns and the same file
    with its line feeds so written have the same outcome. *)
Theorem crlf_accepted (tokenize : string → list string)
    (fs : Py.filesystem) (infile infile' text : string) :
  fs infile = Some text → fs infile' = Some (to_crlf text) →
  count_char Py.CR text = O →
  read_sentiment_examples tokenize fs infile' =
  read_sentiment_examples tokenize fs infile.
Proof.
  intros Hfs Hfs' Hcr.
  rewrite (read_unfold tokenize _ _ _ Hfs), (read_unfold tokenize _ _ _ Hfs').
  unfold file_lines. by rewrite universal_newlines_to_crlf.
Qed.

Lemma crlf_accepted_witness :
  read_sentiment_examples split_whitespace crlf_corpus "dos.tsv" =
  read_sentiment_examples split_whitespace crlf_corpus "unix.tsv".
Proof.
  apply (crlf_accepted split_whitespace crlf_corpus
           "unix.tsv" "dos.tsv" corpus).
  - reflexivity.
  - reflexivity.
  - reflexivity.
Defined.

Lemma occurrences_app (w : string) (text1 text2 : list string) :
  occurrences w (text1 ++ text2) = occurrences w text1 + occurrences w text2.
Proof. unfold occurrences. rewrite filter_app, length_app. lia. Qed.

(** X14. On a vocabulary the vector of a concatenation comes from the
    vectors of the parts, entry by entry: their maximum in binary mode,
    and, for at most [2 ^ 24] tokens in all, their sum in count mode. *)
Theorem bag_of_words_concatenation (V : gmap string Z)
    (text1 text2 : list string) :
  Vocabulary V →
  ∃ b1 b2 c1 c2,
    bag_of_words text1 V true = Ok b1 ∧
    bag_of_words text2 V true = Ok b2 ∧
    bag_of_words (text1 ++ text2) V true = Ok (zip_with Z.max b1 b2) ∧
    bag_of_words text1 V false = Ok c1 ∧
    bag_of_words text2 V false = Ok c2 ∧
    (Z.of_nat (length (text1 ++ text2)) ≤ exact_max →
     bag_of_words (text1 ++ text2) V false = Ok (zip_with Z.add c1 c2)).
Proof.
  intros HV.
  destruct (Vocabulary_bag_of_words V text1 true HV) as (b1 & Hb1 & Lb1 & Eb1).
  destruct (Vocabulary_bag_of_words V text2 true HV) as (b2 & Hb2 & Lb2 & Eb2).
  destruct (Vocabulary_bag_of_words V (text1 ++ text2) true HV)
    as (b & Hb & Lb & Eb).
  destruct (count_mode_entries V text1 HV) as (c1 & Hc1 & Lc1 & Ec1).
  destruct (count_mode_entries V text2 HV) as (c2 & Hc2 & Lc2 & Ec2).
  exists b1, b2, c1, c2.
  split; [done|]. split; [done|]. split.
  { rewrite Hb. f_equal. apply (Vocabulary_tensor_eq V); [done|done| |].
    - rewrite length_zip_with. lia.
    - intros w i Hw.
      rewrite lookup_zip_with, (Eb w i Hw), (Eb1 w i Hw), (Eb2 w i Hw).
      simpl. f_equal.
      destruct (decide (w ∈ text1)) as [H1|H1];
        destruct (decide (w ∈ text2)) as [H2|H2];
        destruct (decide (w ∈ text1 ++ text2)) as [H12|H12]; try done;
        exfalso; rewrite elem_of_app in H12; tauto. }
  split; [done|]. split; [done|]. intros Hlen.
  rewrite length_app in Hlen.
  destruct (exact_count_entries V (text1 ++ text2) HV)
    as (c & Hc & Lc & Ec); [rewrite length_app; lia|].
  rewrite Hc. f_equal. apply (Vocabulary_tensor_eq V); [done|done| |].
  - rewrite length_zip_with. lia.
  - intros w i Hw.
    rewrite lookup_zip_with, (Ec w i Hw), (Ec1 w i Hw), (Ec2 w i Hw).
    simpl. f_equal. rewrite occurrences_app.
    pose proof (occurrences_nonneg w text1).
    pose proof (occurrences_nonneg w text2).
    pose proof (occurrences_le_length w text1).
    pose proof (occurrences_le_length w text2).
    rewrite !float32_of_int_exact by lia. done.
Qed.

Lemma bag_of_words_concatenation_witness :
  ∃ b1 b2,
    bag_of_words ["a"; "z"] vocab_a true = Ok b1 ∧
    bag_of_words ["a"] vocab_a true = Ok b2 ∧
    bag_of_words (["a"; "z"] ++ ["a"]) vocab_a true =
      Ok (zip_with Z.max b1 b2).
Proof.
  destruct (bag_of_words_concatenation vocab_a ["a"; "z"] ["a"]
              Vocabulary_vocab_a) as (b1 & b2 & _ & _ & H1 & H2 & H3 & _).
  exists b1, b2. split; [exact H1|]. split; [exact H2|exact H3].
Defined.
